(** * yopt: a command-line tokenizer and option accessor

    Shallow embedding of [include/yopt.h], instantiated at [CharT = char],
    and the properties of its tokenizing state machine, its typed accessors
    and its quote-stripping helper.

    Conventions of the embedding.
    - A C string [const char * s] is the list of the characters stored at
      [s]; the terminating NUL is implicit: reading at an index past the
      last character of the list yields NUL (a NUL inside the list
      terminates the string there, as in C).
    - Pointers into the buffer ([c], [token_start]) are indices.
    - A [std::string_view] stored in the containers is represented by the
      characters it spans: the input buffers are never written, and every
      accessor and the ordering of the map read views by content only.
    - The size of a view [{token_start, c}] is the number of characters it
      spans: the cursor never leaves the buffer (see [wf] and [wf_step]),
      so this number is [c - token_start].
    - [std::map] is a [gmap]; [operator[]] without assignment is
      [subscript], with assignment it is an insertion.
    - The instantiation at [wchar_t] differs in the conversions of
      [find_opt] and of [get_int] only; it is not modelled. *)

From Stdlib Require Import ZArith Ascii String List Lia Bool.
From stdpp Require Import gmap strings list.

Open Scope list_scope.

(** ** Characters and views *)

Abbreviation string_view := (list ascii).

Definition NUL : ascii := "000"%char.
Definition SP : ascii := " "%char.
Definition TAB : ascii := "009"%char.
Definition CR : ascii := "013"%char.
Definition LF : ascii := "010"%char.
Definition DASH : ascii := "-"%char.
Definition QUOTE : ascii := "034"%char.
Definition EQUAL : ascii := "="%char.

(** A string literal as a character buffer. *)
Definition cstr (s : string) : list ascii := list_ascii_of_string s.

(** [*c] for a pointer [c] into the NUL-terminated buffer [s]. *)
Definition deref (s : list ascii) (c : nat) : ascii := nth c s NUL.

(** The view [{s + first, s + last}]. *)
Definition view (s : list ascii) (first last : nat) : string_view :=
  take (last - first) (drop first s).

Definition is_eol (c : ascii) : bool := Ascii.eqb c NUL.

Definition is_whitespace (c : ascii) : bool :=
  Ascii.eqb c SP || Ascii.eqb c TAB || Ascii.eqb c CR || Ascii.eqb c LF.

Definition is_dash (c : ascii) : bool := Ascii.eqb c DASH.

Definition is_quote (c : ascii) : bool := Ascii.eqb c QUOTE.

Definition is_equal_sign (c : ascii) : bool := Ascii.eqb c EQUAL.

(** ** The options object *)

(** [a]: free standing values; [opts]: parsed key values. *)
Record options : Type := mk_options {
  a : list string_view;
  opts : gmap string_view string_view
}.

Definition empty_options : options := {| a := []; opts := ∅ |}.

(** [m[k];] creates the entry with an empty view when it is missing and
    leaves an existing entry as it is. *)
Definition subscript (m : gmap string_view string_view) (k : string_view)
  : gmap string_view string_view :=
  match m !! k with
  | Some _ => m
  | None => <[k := []]> m
  end.

Module parse_state.
Inductive t : Set :=
  none | key_prefix | long_key_prefix | key | value | quoted_value.
End parse_state.

(** The local variables of [parse] ([ps], [token_start], [key]) together
    with the object under construction. The cursor [c] and the counter
    [len] advance in lockstep and are the loop index. *)
Record frame : Type := mk_frame {
  ps : parse_state.t;
  token_start : nat;
  key : string_view;
  self : options
}.

Definition set_ps (p : parse_state.t) (f : frame) : frame :=
  {| ps := p; token_start := token_start f; key := key f; self := self f |}.

Definition set_token_start (t : nat) (f : frame) : frame :=
  {| ps := ps f; token_start := t; key := key f; self := self f |}.

Definition set_key (k : string_view) (f : frame) : frame :=
  {| ps := ps f; token_start := token_start f; key := k; self := self f |}.

(** [opts[k];] *)
Definition touch_opt (k : string_view) (f : frame) : frame :=
  {| ps := ps f; token_start := token_start f; key := key f;
     self := {| a := a (self f); opts := subscript (opts (self f)) k |} |}.

(** [opts[k] = v;] *)
Definition store_opt (k v : string_view) (f : frame) : frame :=
  {| ps := ps f; token_start := token_start f; key := key f;
     self := {| a := a (self f); opts := <[k := v]> (opts (self f)) |} |}.

(** [a.emplace_back(v);] *)
Definition emplace_back (v : string_view) (f : frame) : frame :=
  {| ps := ps f; token_start := token_start f; key := key f;
     self := {| a := a (self f) ++ [v]; opts := opts (self f) |} |}.

(** [key.size() > 0] *)
Definition nonempty (v : string_view) : bool := 0 <? length v.

(** ** The tokenizer *)

(** The [switch (ps)] statement of the loop body, at cursor [c]. *)
Definition step (s : list ascii) (single_value : bool) (c : nat) (f : frame)
  : frame :=
  let ch := deref s c in
  match ps f with
  | parse_state.none =>
      if is_whitespace ch then f
      else if is_dash ch then
        let f := set_ps parse_state.key_prefix f in
        if nonempty (key f) then touch_opt (key f) f else f
      else if is_quote ch then
        set_token_start c (set_ps parse_state.quoted_value f)
      else
        set_token_start c (set_ps parse_state.value f)
  | parse_state.key_prefix =>
      if is_dash ch then set_ps parse_state.long_key_prefix f
      else if is_whitespace ch then set_ps parse_state.none f
      else set_token_start c (set_ps parse_state.key f)
  | parse_state.long_key_prefix =>
      if is_whitespace ch then set_ps parse_state.none f
      else set_token_start c (set_ps parse_state.key f)
  | parse_state.key =>
      if is_whitespace ch then
        let f := set_ps parse_state.none f in
        if token_start f <? c then touch_opt (view s (token_start f) c) f
        else f
      else if is_equal_sign ch then
        let f := set_ps parse_state.value f in
        let f := set_key (view s (token_start f) c) f in
        set_token_start (c + 1) f
      else f
  | parse_state.value =>
      if is_quote ch && (token_start f =? c) then
        set_ps parse_state.quoted_value f
      else if is_whitespace ch && negb single_value then
        let f := set_ps parse_state.none f in
        let f :=
          if nonempty (key f)
          then store_opt (key f) (view s (token_start f) c) f
          else emplace_back (view s (token_start f) c) f in
        set_key [] f
      else f
  | parse_state.quoted_value =>
      if is_quote ch then
        let f := set_ps parse_state.none f in
        let f :=
          if nonempty (key f)
          then store_opt (key f) (view s (token_start f + 1) c) f
          else emplace_back (view s (token_start f + 1) c) f in
        set_key [] f
      else f
  end.

(** The body of [if (is_eol( *c))]: handle trailing tokens. *)
Definition flush (s : list ascii) (c : nat) (f : frame) : frame :=
  match ps f with
  | parse_state.key =>
      if token_start f <? c then
        let f := set_key (view s (token_start f) c) f in
        touch_opt (key f) f
      else f
  | parse_state.value =>
      if nonempty (key f) then store_opt (key f) (view s (token_start f) c) f
      else if token_start f <? c then
        emplace_back (view s (token_start f) c) f
      else f
  | parse_state.quoted_value =>
      if nonempty (key f)
      then store_opt (key f) (view s (token_start f + 1) c) f
      else emplace_back (view s (token_start f + 1) c) f
  | _ => f
  end.

(** [while (len < max_length)]: [fuel] is [max_length - len], and [c] is
    [s + len]. The loop ends at the terminator, after the flush, or when
    the fuel is used up, without one. *)
Fixpoint parse_loop (fuel : nat) (s : list ascii) (single_value : bool)
    (c : nat) (f : frame) : frame :=
  match fuel with
  | 0 => f
  | S fuel' =>
      let f' := step s single_value c f in
      if is_eol (deref s c) then flush s c f'
      else parse_loop fuel' s single_value (S c) f'
  end.

(** [YOPT_CMD_MAX_LENGTH] *)
Definition max_length : nat := 4096.

Definition entry (o : options) : frame :=
  {| ps := parse_state.none; token_start := 0; key := []; self := o |}.

(** [parse] with the scan bound as a parameter. *)
Definition parse_upto (bound : nat) (s : list ascii) (single_value : bool)
    (o : options) : options :=
  self (parse_loop bound s single_value 0 (entry o)).

(** [void parse(const CharT * s, bool single_value = false)] as a
    transformer of the object. *)
Definition parse (s : list ascii) (single_value : bool) (o : options)
  : options :=
  parse_upto max_length s single_value o.

(** [options(const CharT * cmd_line)] *)
Definition options_cmd_line (cmd_line : list ascii) : options :=
  parse cmd_line false empty_options.

(** [options(int argc, const CharT ** argv)]: start from 1, skip the
    program name. *)
Definition options_argv (argc : nat) (argv : list (list ascii)) : options :=
  fold_left (fun o i => parse (nth i argv []) true o)
            (seq 1 (argc - 1)) empty_options.

(** ** The accessors *)

Inductive exception : Set :=
| out_of_range (what : string)
| invalid_argument (what : string).

Inductive outcome (A : Type) : Type :=
| returns (x : A)
| throws (e : exception).

Arguments returns {A} x.
Arguments throws {A} e.

(** [opts.find(key)]: the mapped view of the entry found, [None] for
    [std::end(opts)]. *)
Definition find_opt (o : options) (key : string_view) : option string_view :=
  opts o !! key.

Definition has_opt (o : options) (key : string_view) : bool :=
  match find_opt o key with
  | Some _ => true
  | None => false
  end.

Definition get_string (o : options) (key : string_view)
  : option string_view :=
  match find_opt o key with
  | None => None
  | Some second => Some second
  end.

Definition get_string_or (o : options) (key default_value : string_view)
  : string_view :=
  match get_string o key with
  | None => default_value
  | Some v => v
  end.

Definition get_required_string (o : options) (key : string_view)
  : outcome string_view :=
  match get_string o key with
  | None => throws (out_of_range "option not provided")
  | Some v => returns v
  end.

(** A call of a [const] member function on the object [o]: what the call
    yields and the object after it. None of the accessors writes [a] or
    [opts]; they reach the map through [find] only, never through
    [operator[]]. *)
Definition const_call {A : Type} (m : options -> A) (o : options)
  : A * options :=
  (m o, o).

Definition make_string (s : string) : list ascii := list_ascii_of_string s.

Definition true_values : gset (list ascii) :=
  {[ make_string "TRUE"; make_string "true"; make_string "T";
     make_string "YES"; make_string "yes"; make_string "Y"; make_string "y";
     make_string "1" ]}.

Definition false_values : gset (list ascii) :=
  {[ make_string "FALSE"; make_string "false"; make_string "F";
     make_string "NO"; make_string "no"; make_string "N"; make_string "n";
     make_string "0" ]}.

Definition get_bool (o : options) (key : string_view) (default_value : bool)
  : outcome bool :=
  match get_string o key with
  | None => returns default_value
  | Some s =>
      if negb (nonempty s) then returns true
      else if bool_decide (s ∈ true_values) then returns true
      else if bool_decide (s ∈ false_values) then returns false
      else throws (invalid_argument "boolean option argument not recognized")
  end.

(** *** [std::from_chars]

    The function comes from the C++ standard library (header <charconv>),
    not from this repository. It is modelled as the standard specifies it
    for a signed integer and base 10: the pattern is an optional minus sign
    (no plus sign, no leading whitespace) followed by decimal digits, and
    the longest prefix of the range that matches is consumed. Without a
    match the result is [invalid_argument] with [ptr = first]; when the
    number does not fit the type it is [result_out_of_range] with [ptr]
    after the digits; in both cases [value] is left as it was. Otherwise
    [value] is set and [ec] is value-initialised. [int] has 32 bits. *)

Module errc.
Inductive t : Set := ok | invalid_argument | result_out_of_range.

Definition eqb (x y : t) : bool :=
  match x, y with
  | ok, ok | invalid_argument, invalid_argument
  | result_out_of_range, result_out_of_range => true
  | _, _ => false
  end.
End errc.

Record from_chars_result : Set := { ptr : nat; ec : errc.t }.

Definition INT_MIN : Z := (- 2 ^ 31)%Z.
Definition INT_MAX : Z := (2 ^ 31 - 1)%Z.

Definition is_digit (c : ascii) : bool :=
  (48 <=? nat_of_ascii c) && (nat_of_ascii c <=? 57).

Definition digit_value (c : ascii) : Z := (Z.of_nat (nat_of_ascii c) - 48)%Z.

Fixpoint digits_prefix (s : list ascii) : list ascii :=
  match s with
  | c :: s' => if is_digit c then c :: digits_prefix s' else []
  | [] => []
  end.

Definition decimal (ds : list ascii) : Z :=
  fold_left (fun acc d => (10 * acc + digit_value d)%Z) ds 0%Z.

(** The outcome for the digits [ds] matched after the sign. *)
Definition from_digits (minus : bool) (ds : list ascii) (value : Z)
  : from_chars_result * Z :=
  match ds with
  | [] => ({| ptr := 0; ec := errc.invalid_argument |}, value)
  | _ :: _ =>
      let n := if minus then (- decimal ds)%Z else decimal ds in
      let p := (if minus then 1 else 0) + length ds in
      if (INT_MIN <=? n)%Z && (n <=? INT_MAX)%Z
      then ({| ptr := p; ec := errc.ok |}, n)
      else ({| ptr := p; ec := errc.result_out_of_range |}, value)
  end.

(** [std::from_chars(first, last, value)] on the characters [s] of
    [first, last). *)
Definition from_chars (s : list ascii) (value : Z) : from_chars_result * Z :=
  match s with
  | c :: s' =>
      if is_dash c then from_digits true (digits_prefix s') value
      else from_digits false (digits_prefix s) value
  | [] => from_digits false [] value
  end.

Definition get_int (o : options) (key : string_view) : option Z :=
  match get_string o key with
  | None => None
  | Some sv =>
      let '(r, value) := from_chars sv 0%Z in
      if errc.eqb (ec r) errc.ok then Some value else None
  end.

Definition get_int_or (o : options) (key : string_view) (default_value : Z)
  : Z :=
  match get_int o key with
  | Some v => v
  | None => default_value
  end.

(** [a.at(index)]. The text of the exception is left to the library; the
    one written here stands for it, and no property depends on it. *)
Definition arg (o : options) (index : nat) : outcome string_view :=
  match a o !! index with
  | Some v => returns v
  | None => throws (out_of_range "vector::at")
  end.

Definition arg_count (o : options) : nat := length (a o).

Definition args (o : options) : list string_view := a o.

(** ** The quote-stripping helper *)

(** Here the view itself is at stake, so it is a pair of pointers
    [sv_begin, sv_end) into a memory [m], and the function also reports
    the addresses it dereferences, in order. *)
Record span : Set := { sv_begin : nat; sv_end : nat }.

Record stripped : Set := { result : span; reads : list nat }.

Definition contents (m : list ascii) (v : span) : list ascii :=
  view m (sv_begin v) (sv_end v).

Definition strip_quotes (m : list ascii) (s : span) : stripped :=
  let b := sv_begin s in
  (* [*b == QUOTE && b != end(s)]: the left operand is evaluated first *)
  let r := [b] in
  let b := if is_quote (deref m b) && negb (b =? sv_end s) then b + 1 else b in
  let e := sv_end s in
  if negb (e =? b) then
    let e := e - 1 in
    let r := r ++ [e] in
    let e := if is_quote (deref m e) && negb (e =? b) then e - 1 else e in
    {| result := {| sv_begin := b; sv_end := e + 1 |}; reads := r |}
  else
    {| result := {| sv_begin := b; sv_end := e + 1 |}; reads := r |}.


Arguments parse_upto : simpl never.
Arguments parse : simpl never.
Arguments options_cmd_line : simpl never.
Arguments options_argv : simpl never.

(** * Specification vocabulary *)

(** ** The literals of [get_bool] *)

Definition true_literals : list string :=
  ["TRUE"; "true"; "T"; "YES"; "yes"; "Y"; "y"; "1"]%string.

Definition false_literals : list string :=
  ["FALSE"; "false"; "F"; "NO"; "no"; "N"; "n"; "0"]%string.

(** ** Views and bounds, for [strip_quotes] *)

(** The address [p] lies inside the view [s]. *)
Definition in_view (s : span) (p : nat) : Prop :=
  sv_begin s <= p /\ p < sv_end s.

(** [inner] is a sub-range of [outer], possibly empty. *)
Definition sub_range (outer inner : span) : Prop :=
  sv_begin outer <= sv_begin inner /\
  sv_begin inner <= sv_end inner /\
  sv_end inner <= sv_end outer.

(** The view of the characters [s] inside the memory [pre ++ s ++ post]. *)
Definition window (pre s : list ascii) : span :=
  {| sv_begin := length pre; sv_end := length pre + length s |}.

(** The amended wording, on the characters of the view: one leading quote
    is taken off; then one trailing quote is taken off, provided another
    character remains in front of it. *)
Definition strip_words (s : list ascii) : list ascii :=
  let s1 :=
    match s with
    | c :: s' => if is_quote c then s' else s
    | [] => []
    end in
  match s1 with
  | _ :: _ :: _ => if is_quote (List.last s1 NUL) then removelast s1 else s1
  | _ => s1
  end.

(** ** Integer prefixes, for [get_int] *)

(** [rest] does not go on with a digit. *)
Definition stops (rest : list ascii) : Prop :=
  match rest with
  | c :: _ => is_digit c = false
  | [] => True
  end.

(** The words of the amended claim: [v] starts with an optional minus sign
    and at least one decimal digit, and [n] is the number that this longest
    such prefix denotes. *)
Inductive integer_prefix : list ascii -> Z -> Prop :=
| prefix_digits (ds rest : list ascii) :
    ds <> [] -> Forall (fun c => is_digit c = true) ds -> stops rest ->
    integer_prefix (ds ++ rest) (decimal ds)
| prefix_minus (ds rest : list ascii) :
    ds <> [] -> Forall (fun c => is_digit c = true) ds -> stops rest ->
    integer_prefix (DASH :: ds ++ rest) (- decimal ds).

(** [n] is a value of [int]. *)
Definition in_int_range (n : Z) : Prop := (INT_MIN <= n <= INT_MAX)%Z.

(** ** The loop, cut in two *)

(** [n] iterations of the loop body on characters that are not the
    terminator: the [switch] only, no flush. *)
Fixpoint scan (n : nat) (s : list ascii) (single_value : bool) (c : nat)
    (f : frame) : frame :=
  match n with
  | 0 => f
  | S n' => scan n' s single_value (S c) (step s single_value c f)
  end.

(** No terminator among the first [bound] characters of [s]. *)
Definition unterminated (bound : nat) (s : list ascii) : bool :=
  (bound <=? length s) && forallb (fun ch => negb (is_eol ch)) (take bound s).

(** What holds of the locals whenever the loop body is entered with the
    cursor at [c]: the cursor is inside the buffer or at its terminator; a
    pending key is kept only while its value is read; a token that was
    started has its start before the cursor, except the value of a key
    right after the equal sign. *)
Definition wf (s : list ascii) (c : nat) (f : frame) : Prop :=
  c <= length s /\
  match ps f with
  | parse_state.key => key f = [] /\ token_start f < c
  | parse_state.value =>
      token_start f <= c /\ (key f = [] -> token_start f < c)
  | parse_state.quoted_value => token_start f < c
  | _ => key f = []
  end.

(** ** Tokens of the command syntax *)

(** The characters a key, an unquoted value and a quoted value are made
    of. *)
Definition key_char (c : ascii) : bool :=
  negb (is_whitespace c || is_equal_sign c || is_eol c).

Definition value_char (c : ascii) : bool :=
  negb (is_whitespace c || is_eol c).

Definition quoted_char (c : ascii) : bool :=
  negb (is_quote c || is_eol c).

(** A key: not empty, no whitespace, no equal sign, and no dash in front,
    which would read as one more key marker. *)
Definition valid_key (k : list ascii) : bool :=
  match k with
  | c :: _ => negb (is_dash c) && forallb key_char k
  | [] => false
  end.

(** An unquoted value of a key: no whitespace, and no quote in front,
    which would open a quoted value. It may be empty. *)
Definition valid_value (v : list ascii) : bool :=
  negb (is_quote (hd NUL v)) && forallb value_char v.

(** A bare token: not empty, no whitespace, and neither a dash nor a quote
    in front. *)
Definition valid_word (w : list ascii) : bool :=
  match w with
  | c :: _ => negb (is_dash c || is_quote c) && forallb value_char w
  | [] => false
  end.

(** The text between two quotes: any characters but the quote. *)
Definition valid_quoted (q : list ascii) : bool := forallb quoted_char q.

(** The tokens of the command syntax: [-key] and [--key]; [-key=value];
    [-key="quoted value"]; a bare [token]; a ["quoted token"]. *)
Inductive token : Set :=
| flag (long : bool) (k : list ascii)
| keyed (long : bool) (k v : list ascii)
| keyed_quoted (long : bool) (k q : list ascii)
| word (w : list ascii)
| quoted (q : list ascii).

(** The key marker: one dash or two. *)
Definition dashes (long : bool) : list ascii :=
  if long then [DASH; DASH] else [DASH].

(** The characters of a token. *)
Definition spell (t : token) : list ascii :=
  match t with
  | flag long k => dashes long ++ k
  | keyed long k v => dashes long ++ k ++ EQUAL :: v
  | keyed_quoted long k q => dashes long ++ k ++ EQUAL :: QUOTE :: q ++ [QUOTE]
  | word w => w
  | quoted q => QUOTE :: q ++ [QUOTE]
  end.

(** The parts of the token are well formed. *)
Definition valid_token (t : token) : bool :=
  match t with
  | flag _ k => valid_key k
  | keyed _ k v => valid_key k && valid_value v
  | keyed_quoted _ k q => valid_key k && valid_quoted q
  | word w => valid_word w
  | quoted q => valid_quoted q
  end.

(** Tokens separated by one blank. *)
Fixpoint command_line (ts : list token) : list ascii :=
  match ts with
  | [] => []
  | [t] => spell t
  | t :: ts' => spell t ++ SP :: command_line ts'
  end.

(** What a token does to the object. *)
Definition effect (o : options) (t : token) : options :=
  match t with
  | flag _ k => {| a := a o; opts := subscript (opts o) k |}
  | keyed _ k v | keyed_quoted _ k v =>
      {| a := a o; opts := <[k := v]> (opts o) |}
  | word w | quoted w => {| a := a o ++ [w]; opts := opts o |}
  end.

(** The frame once the characters of a token are consumed: a flag, an
    unquoted value and a bare token are still in flight; a quoted value is
    stored by its closing quote. *)
Definition held (t : token) (c : nat) (o : options) : frame :=
  match t with
  | flag long k =>
      mk_frame parse_state.key (c + length (dashes long)) [] o
  | keyed long k v =>
      mk_frame parse_state.value
        (c + (length (dashes long) + length k) + 1) k o
  | keyed_quoted long k q =>
      mk_frame parse_state.none
        (c + (length (dashes long) + length k) + 1) [] (effect o t)
  | word w => mk_frame parse_state.value c [] o
  | quoted q => mk_frame parse_state.none c [] (effect o t)
  end.

(** Every token followed by a blank. *)
Fixpoint blank_terminated (ts : list token) : list ascii :=
  match ts with
  | [] => []
  | t :: ts' => spell t ++ SP :: blank_terminated ts'
  end.

(** Every token fits the scan bound. *)
Definition fits (ts : list token) : bool :=
  forallb (fun t => length (spell t) <? max_length) ts.

(** ** What a list of tokens leaves in the object *)

(** The value that a token gives to the key [k], if it gives one. *)
Definition assigns (k : list ascii) (t : token) : option (list ascii) :=
  match t with
  | keyed _ k' v | keyed_quoted _ k' v =>
      if bool_decide (k' = k) then Some v else None
  | _ => None
  end.

(** [t] is a bare flag for [k]. *)
Definition names (k : list ascii) (t : token) : bool :=
  match t with
  | flag _ k' => bool_decide (k' = k)
  | _ => false
  end.

(** The value of the last occurrence of [k] that carries a value. *)
Fixpoint last_value (k : list ascii) (ts : list token)
  : option (list ascii) :=
  match ts with
  | [] => None
  | t :: ts' =>
      match last_value k ts' with
      | Some v => Some v
      | None => assigns k t
      end
  end.

(** The amended wording: the value of the last occurrence that carries
    one; without such an occurrence, the empty value if the key occurs as
    a bare flag. *)
Definition stored_value (k : list ascii) (ts : list token)
  : option (list ascii) :=
  match last_value k ts with
  | Some v => Some v
  | None => if existsb (names k) ts then Some [] else None
  end.

(** The free-standing values of a list of tokens, in order. *)
Definition positional (ts : list token) : list (list ascii) :=
  omap (fun t => match t with
                 | word w | quoted w => Some w
                 | _ => None
                 end) ts.

(** No value of the list is empty. *)
Definition all_nonempty (l : list (list ascii)) : Prop :=
  Forall (fun v => v <> []) l.

(** The invariant of the loop on a buffer without quotes. *)
Definition quote_free_inv (s : list ascii) (c : nat) (f : frame) : Prop :=
  wf s c f /\ ps f <> parse_state.quoted_value /\ all_nonempty (a (self f)).

(** An argv element that is one free-standing value: it starts with a
    character other than whitespace, a dash and a quote, and may go on
    with any characters, whitespace included. *)
Definition single_word (w : list ascii) : bool :=
  match w with
  | c :: _ =>
      negb (is_whitespace c || is_dash c || is_quote c)
      && forallb (fun ch => negb (is_eol ch)) w
  | [] => false
  end.

(** ** Further vocabulary *)

(** [o'] keeps what [o] holds: the positional arguments of [o] stay in
    front, in order, and every key of [o] is still a key. *)
Definition extends (o o' : options) : Prop :=
  (exists more : list (list ascii), a o' = a o ++ more) /\
  forall k : list ascii, is_Some (opts o !! k) -> is_Some (opts o' !! k).

(** No whitespace in the buffer. *)
Definition blank_free (s : list ascii) : bool :=
  forallb (fun ch => negb (is_whitespace ch)) s.

(** No terminator in the buffer. *)
Definition nul_free (s : list ascii) : bool :=
  forallb (fun ch => negb (is_eol ch)) s.

(** A run of whitespace: blanks, tabs, carriage returns, line feeds. *)
Definition whitespace (w : list ascii) : bool := forallb is_whitespace w.

(** Tokens, each followed by a run of whitespace. *)
Fixpoint spaced (l : list (token * list ascii)) : list ascii :=
  match l with
  | [] => []
  | (t, w) :: l' => spell t ++ w ++ spaced l'
  end.

(** Every token is well formed, every run behind a token is whitespace,
    and only the run behind the last token may be empty. *)
Fixpoint valid_spaced (l : list (token * list ascii)) : bool :=
  match l with
  | [] => true
  | (t, w) :: l' =>
      valid_token t && whitespace w
      && (nonempty w || match l' with [] => true | _ :: _ => false end)
      && valid_spaced l'
  end.

(** The tokens of a spaced command line. *)
Definition tokens (l : list (token * list ascii)) : list token := map fst l.

(** [t] gives the key [k], with or without a value. *)
Definition mentions (k : list ascii) (t : token) : bool :=
  match t with
  | flag _ k' | keyed _ k' _ | keyed_quoted _ k' _ => bool_decide (k' = k)
  | _ => false
  end.

(** The value of a key in an argv element: any characters, whitespace
    included, but no quote in front. *)
Definition single_value_text (v : list ascii) : bool :=
  negb (is_quote (hd NUL v)) && nul_free v.

(** A character that begins a key behind the key marker: any character but
    whitespace and the terminator; behind a single dash not a dash, which
    would make the marker a long one. *)
Definition key_head (long : bool) (c : ascii) : bool :=
  negb (is_whitespace c || is_eol c) && (long || negb (is_dash c)).

(** Whitespace and runs of at most two dashes, when [n] dashes have just
    been read: key markers that no key follows. *)
Fixpoint marker_runs (n : nat) (s : list ascii) : bool :=
  match s with
  | [] => true
  | x :: s' =>
      if is_dash x then (n <? 2) && marker_runs (S n) s'
      else is_whitespace x && marker_runs 0 s'
  end.

(** The state of the loop behind [n] dashes. *)
Definition marker_state (n : nat) : parse_state.t :=
  match n with
  | 0 => parse_state.none
  | 1 => parse_state.key_prefix
  | _ => parse_state.long_key_prefix
  end.

(** * Properties *)

(** ** Boolean literals *)

Lemma elem_of_true_values (s : list ascii) :
  s ∈ true_values <-> In s (map cstr true_literals).
Proof.
  unfold true_values, true_literals, make_string, cstr. simpl.
  set_unfold. intuition congruence.
Qed.

Lemma elem_of_false_values (s : list ascii) :
  s ∈ false_values <-> In s (map cstr false_literals).
Proof.
  unfold false_values, false_literals, make_string, cstr. simpl.
  set_unfold. intuition congruence.
Qed.

Lemma true_false_disjoint (s : list ascii) :
  In s (map cstr true_literals) -> In s (map cstr false_literals) -> False.
Proof.
  unfold true_literals, false_literals, cstr. simpl.
  intros Ht Hf.
  repeat (destruct Ht as [Ht | Ht]; [subst s|]); try contradiction;
    repeat (destruct Hf as [Hf | Hf]; [discriminate Hf|]); contradiction.
Qed.

(** C5: [get_bool] yields the default for an absent key and [true] for a
    key present with an empty value; for a non-empty value it returns
    [true] exactly on the eight true literals, [false] exactly on the
    eight false literals, and throws the unrecognized-literal exception
    exactly on every other value. *)
Theorem get_bool_spec (o : options) (key : list ascii) (d : bool) :
  (get_string o key = None -> get_bool o key d = returns d) /\
  (get_string o key = Some [] -> get_bool o key d = returns true) /\
  (forall s : list ascii, get_string o key = Some s -> s <> [] ->
     (get_bool o key d = returns true <-> In s (map cstr true_literals)) /\
     (get_bool o key d = returns false <-> In s (map cstr false_literals)) /\
     (get_bool o key d =
        throws (invalid_argument "boolean option argument not recognized")
      <-> ~ In s (map cstr true_literals) /\
          ~ In s (map cstr false_literals)) /\
     ((exists e, get_bool o key d = throws e) <->
      ~ In s (map cstr true_literals) /\ ~ In s (map cstr false_literals))).
Proof.
  unfold get_bool. split; [|split].
  - intros ->. reflexivity.
  - intros ->. reflexivity.
  - intros s -> Hs.
    assert (Hne : negb (nonempty s) = false)
      by (destruct s; [contradiction | reflexivity]).
    rewrite Hne.
    pose proof (elem_of_true_values s) as Ht.
    pose proof (elem_of_false_values s) as Hf.
    pose proof (true_false_disjoint s) as Hd.
    repeat case_bool_decide; repeat split; intros;
      repeat match goal with
             | H : exists _, _ |- _ => destruct H
             | H : _ /\ _ |- _ => destruct H
             end;
      try discriminate; try tauto; try (eexists; reflexivity).
Qed.

Lemma get_bool_spec_witness :
  get_bool (options_cmd_line (cstr "--a=yes --b=0 --c")) (cstr "a") false
  = returns true /\
  get_bool (options_cmd_line (cstr "--a=yes --b=0 --c")) (cstr "b") true
  = returns false /\
  get_bool (options_cmd_line (cstr "--a=yes --b=0 --c")) (cstr "c") false
  = returns true /\
  get_bool (options_cmd_line (cstr "--a=yes --b=0 --c")) (cstr "d") true
  = returns true.
Proof.
  split; [|split; [|split]].
  - destruct (get_bool_spec (options_cmd_line (cstr "--a=yes --b=0 --c"))
                (cstr "a") false) as (_ & _ & H).
    destruct (H (cstr "yes")) as (Ht & _);
      [vm_compute; reflexivity | discriminate |].
    apply Ht. simpl. tauto.
  - destruct (get_bool_spec (options_cmd_line (cstr "--a=yes --b=0 --c"))
                (cstr "b") true) as (_ & _ & H).
    destruct (H (cstr "0")) as (_ & Hf & _);
      [vm_compute; reflexivity | discriminate |].
    apply Hf. simpl. tauto.
  - destruct (get_bool_spec (options_cmd_line (cstr "--a=yes --b=0 --c"))
                (cstr "c") false) as (_ & H & _).
    apply H. vm_compute. reflexivity.
  - destruct (get_bool_spec (options_cmd_line (cstr "--a=yes --b=0 --c"))
                (cstr "d") true) as (H & _).
    apply H. vm_compute. reflexivity.
Defined.

(** ** Buffers, cursors and views *)

Lemma deref_app_r (pre l : list ascii) (i : nat) :
  deref (pre ++ l) (length pre + i) = deref l i.
Proof.
  unfold deref. rewrite app_nth2 by lia. f_equal. lia.
Qed.


Lemma deref_app_l (l r : list ascii) (i : nat) :
  i < length l -> deref (l ++ r) i = deref l i.
Proof. intros H. unfold deref. now rewrite app_nth1. Qed.

Lemma deref_drop (s : list ascii) (c i : nat) :
  deref s (c + i) = deref (drop c s) i.
Proof.
  unfold deref. revert c.
  induction s as [|x s IH]; intros [|c]; simpl; try reflexivity.
  - now destruct i.
  - apply IH.
Qed.

Lemma deref_not_eol_lt (s : list ascii) (c : nat) :
  is_eol (deref s c) = false -> c < length s.
Proof.
  intros H. destruct (Nat.lt_ge_cases c (length s)) as [|Hge]; [assumption|].
  unfold deref in H. rewrite nth_overflow in H by assumption. discriminate.
Qed.

Lemma view_app_r (pre l : list ascii) (i j : nat) :
  view (pre ++ l) (length pre + i) (length pre + j) = view l i j.
Proof.
  unfold view. rewrite drop_app_add.
  f_equal. lia.
Qed.

Lemma view_whole (l : list ascii) : view l 0 (length l) = l.
Proof. unfold view. rewrite drop_0, Nat.sub_0_r. apply take_ge. lia. Qed.

Lemma view_drop (s : list ascii) (c i j : nat) :
  view s (c + i) (c + j) = view (drop c s) i j.
Proof.
  unfold view. rewrite drop_drop. f_equal. lia.
Qed.

Lemma view_prefix (l r : list ascii) : view (l ++ r) 0 (length l) = l.
Proof. unfold view. rewrite drop_0, Nat.sub_0_r. apply take_app_length. Qed.

Lemma length_view (s : list ascii) (i j : nat) :
  j <= length s -> length (view s i j) = j - i.
Proof.
  intros H. unfold view. rewrite length_take, length_drop. lia.
Qed.

(** ** [strip_quotes] *)

Lemma contents_window (pre s post : list ascii) :
  contents (pre ++ s ++ post) (window pre s) = s.
Proof.
  unfold contents, window. simpl.
  rewrite <- (Nat.add_0_r (length pre)) at 1.
  rewrite view_app_r. apply view_prefix.
Qed.

(** What the function does on a view that holds at least one character
    after the leading quote, if any, is taken off. *)
Lemma strip_quotes_spans (m : list ascii) (s : span) :
  let lead := is_quote (deref m (sv_begin s)) in
  let b := if lead then sv_begin s + 1 else sv_begin s in
  let trail := is_quote (deref m (sv_end s - 1)) && negb (sv_end s - 1 =? b) in
  b < sv_end s ->
  strip_quotes m s =
    {| result := {| sv_begin := b;
                    sv_end := if trail then sv_end s - 1 else sv_end s |};
       reads := [sv_begin s; sv_end s - 1] |}.
Proof.
  destruct s as [b0 e0]. simpl. intros Hlt.
  unfold strip_quotes. simpl.
  assert (Hne : (b0 =? e0) = false)
    by (apply Nat.eqb_neq; destruct (is_quote (deref m b0)); lia).
  rewrite Hne, andb_true_r.
  destruct (is_quote (deref m b0)); simpl.
  - replace (e0 =? b0 + 1) with false by (symmetry; apply Nat.eqb_neq; lia).
    simpl. destruct (is_quote (deref m (e0 - 1))),
      (Nat.eqb_spec (e0 - 1) (b0 + 1)); simpl; repeat f_equal; lia.
  - replace (e0 =? b0) with false by (symmetry; apply Nat.eqb_neq; lia).
    simpl. destruct (is_quote (deref m (e0 - 1))),
      (Nat.eqb_spec (e0 - 1) b0); simpl; repeat f_equal; lia.
Qed.

Lemma view_middle (x y z : list ascii) (i j : nat) :
  i = length x -> j = length x + length y -> view (x ++ y ++ z) i j = y.
Proof.
  intros -> ->. rewrite <- (Nat.add_0_r (length x)) at 1.
  rewrite view_app_r. apply view_prefix.
Qed.

Lemma deref_middle (x z : list ascii) (c : ascii) (i : nat) :
  i = length x -> deref (x ++ c :: z) i = c.
Proof.
  intros ->. rewrite <- (Nat.add_0_r (length x)). now rewrite deref_app_r.
Qed.

Lemma is_quote_eq (c : ascii) : is_quote c = true -> c = QUOTE.
Proof. apply Ascii.eqb_eq. Qed.

Lemma strip_words_single (c : ascii) :
  is_quote c = false -> strip_words [c] = [c].
Proof. intros H. unfold strip_words. now rewrite H. Qed.

Lemma strip_words_quote_first (mid : list ascii) (d : ascii) :
  strip_words (QUOTE :: mid ++ [d]) =
  if is_quote d && negb (length mid =? 0) then mid else mid ++ [d].
Proof.
  unfold strip_words. simpl.
  destruct mid as [|x mid]; [simpl; now rewrite andb_false_r|].
  simpl length. simpl negb. rewrite andb_true_r.
  change ((x :: mid) ++ [d]) with (x :: mid ++ [d]).
  assert (Hsh : exists y l, mid ++ [d] = y :: l)
    by (destruct mid; simpl; eauto).
  destruct Hsh as (y & l & Hyl). rewrite Hyl at 1.
  change (x :: mid ++ [d]) with ((x :: mid) ++ [d]).
  now rewrite last_last, removelast_last.
Qed.

Lemma strip_words_other_first (c d : ascii) (mid : list ascii) :
  is_quote c = false ->
  strip_words (c :: mid ++ [d]) =
  if is_quote d then c :: mid else c :: mid ++ [d].
Proof.
  intros Hc. unfold strip_words. rewrite Hc.
  assert (Hsh : exists y l, mid ++ [d] = y :: l)
    by (destruct mid; simpl; eauto).
  destruct Hsh as (y & l & Hyl). rewrite Hyl at 1.
  change (c :: mid ++ [d]) with ((c :: mid) ++ [d]).
  now rewrite last_last, removelast_last.
Qed.

Lemma split_last (s : list ascii) :
  s = [] \/ exists mid d, s = mid ++ [d].
Proof.
  induction s as [|x s IH] using rev_ind; [now left | right; eauto].
Qed.

Lemma strip_quotes_window (pre s post : list ascii) :
  s <> [] -> s <> [QUOTE] ->
  let m := pre ++ s ++ post in
  let r := strip_quotes m (window pre s) in
  contents m (result r) = strip_words s /\
  reads r = [length pre; length pre + length s - 1] /\
  sub_range (window pre s) (result r).
Proof.
  intros Hnil Hq. cbv zeta.
  destruct s as [|c s']; [contradiction|].
  remember (pre ++ (c :: s') ++ post) as m eqn:Hm.
  remember (strip_quotes m (window pre (c :: s'))) as r eqn:Hr.
  pose proof (strip_quotes_spans m (window pre (c :: s'))) as H.
  rewrite <- Hr in H. cbv zeta in H. unfold window in H |- *.
  simpl sv_begin in H |- *. simpl sv_end in H |- *.
  assert (Hc : deref m (length pre) = c)
    by (rewrite Hm; now apply deref_middle).
  rewrite Hc in H.
  destruct (split_last s') as [-> | (mid & d & ->)].
  - (* one character, not a quote *)
    assert (Hcq : is_quote c = false).
    { destruct (is_quote c) eqn:E; [|reflexivity].
      apply is_quote_eq in E. subst c. contradiction. }
    rewrite Hcq in H. simpl length in H |- *.
    replace (length pre + 1 - 1) with (length pre) in H |- * by lia.
    rewrite Nat.eqb_refl, andb_false_r in H.
    rewrite H by lia. simpl. unfold sub_range, contents. simpl.
    rewrite strip_words_single by assumption.
    split; [|split; [reflexivity | lia]].
    rewrite Hm. apply (view_middle pre [c] post); simpl; lia.
  - change (length (c :: mid ++ [d])) with (S (length (mid ++ [d]))).
    assert (Hlen : S (length (mid ++ [d])) = length mid + 2)
      by (rewrite length_app; simpl; lia).
    rewrite Hlen in H |- *.
    assert (Hd : deref m (length pre + (length mid + 2) - 1) = d).
    { rewrite Hm. replace (pre ++ (c :: mid ++ [d]) ++ post)
        with ((pre ++ c :: mid) ++ d :: post)
        by (simpl; rewrite <- !app_assoc; reflexivity).
      apply deref_middle. rewrite !length_app. simpl. lia. }
    rewrite Hd in H.
    destruct (is_quote c) eqn:Hcq.
    + apply is_quote_eq in Hcq. subst c.
      rewrite strip_words_quote_first.
      rewrite H by lia. unfold sub_range, contents. simpl.
      replace (length pre + (length mid + 2) - 1 =? length pre + 1)
        with (length mid =? 0)
        by (destruct mid; simpl; [symmetry; apply Nat.eqb_eq|
                                  symmetry; apply Nat.eqb_neq]; lia).
      destruct (is_quote d && negb (length mid =? 0)); simpl.
      * split; [|split; [reflexivity | lia]].
        rewrite Hm. replace (pre ++ (QUOTE :: mid ++ [d]) ++ post)
          with ((pre ++ [QUOTE]) ++ mid ++ (d :: post))
          by (simpl; rewrite <- !app_assoc; reflexivity).
        apply view_middle; rewrite length_app; simpl; lia.
      * split; [|split; [reflexivity | lia]].
        rewrite Hm. replace (pre ++ (QUOTE :: mid ++ [d]) ++ post)
          with ((pre ++ [QUOTE]) ++ (mid ++ [d]) ++ post)
          by (simpl; rewrite <- !app_assoc; reflexivity).
        apply view_middle; rewrite !length_app; simpl; lia.
    + rewrite strip_words_other_first by assumption.
      rewrite H by lia. unfold sub_range, contents. simpl.
      replace (length pre + (length mid + 2) - 1 =? length pre) with false
        by (symmetry; apply Nat.eqb_neq; lia).
      rewrite andb_true_r.
      destruct (is_quote d); simpl.
      * split; [|split; [reflexivity | lia]].
        rewrite Hm. replace (pre ++ (c :: mid ++ [d]) ++ post)
          with (pre ++ (c :: mid) ++ (d :: post))
          by (simpl; rewrite <- !app_assoc; reflexivity).
        apply view_middle; simpl; lia.
      * split; [|split; [reflexivity | lia]].
        rewrite Hm. apply view_middle; simpl; rewrite ?length_app; simpl; lia.
Qed.

(** C4 (amended): on every non-empty view other than the one-character
    view holding a single quote, [strip_quotes] takes off one leading
    quote when the first character is a quote, and one trailing quote when
    the last character is a quote and another character remains in front
    of it once the leading quote is gone. On the two-character view of two
    quotes the result is therefore the one-character view of a quote; a
    view with only a leading or only a trailing quote loses just that one,
    and a view with text between two quotes loses both. *)
Theorem strip_quotes_amended :
  (forall pre s post : list ascii, s <> [] -> s <> [QUOTE] ->
     let m := pre ++ s ++ post in
     contents m (result (strip_quotes m (window pre s))) = strip_words s) /\
  (forall pre post : list ascii,
     let m := pre ++ [QUOTE; QUOTE] ++ post in
     contents m (result (strip_quotes m (window pre [QUOTE; QUOTE])))
     = [QUOTE]) /\
  (forall pre x post : list ascii,
     x <> [] -> is_quote (List.last x NUL) = false ->
     let m := pre ++ (QUOTE :: x) ++ post in
     contents m (result (strip_quotes m (window pre (QUOTE :: x)))) = x) /\
  (forall pre x post : list ascii,
     x <> [] -> is_quote (hd NUL x) = false ->
     let m := pre ++ (x ++ [QUOTE]) ++ post in
     contents m (result (strip_quotes m (window pre (x ++ [QUOTE])))) = x) /\
  (forall pre x post : list ascii,
     x <> [] ->
     let m := pre ++ (QUOTE :: x ++ [QUOTE]) ++ post in
     contents m (result (strip_quotes m (window pre (QUOTE :: x ++ [QUOTE]))))
     = x).
Proof.
  repeat split.
  - intros pre s post Hn Hq. now apply strip_quotes_window.
  - intros pre post.
    destruct (strip_quotes_window pre [QUOTE; QUOTE] post) as [H _];
      [discriminate | discriminate | exact H].
  - intros pre x post Hx Hlast.
    destruct (strip_quotes_window pre (QUOTE :: x) post) as [H _];
      [discriminate | destruct x; [contradiction | discriminate] |].
    cbv zeta. rewrite H.
    destruct (split_last x) as [-> | (mid & d & ->)]; [contradiction|].
    rewrite strip_words_quote_first. rewrite last_last in Hlast.
    now rewrite Hlast.
  - intros pre x post Hx Hhd.
    destruct (strip_quotes_window pre (x ++ [QUOTE]) post) as [H _].
    + destruct x; discriminate.
    + destruct x as [|c x]; [contradiction | destruct x; discriminate].
    + cbv zeta. rewrite H. destruct x as [|c x]; [contradiction|].
      simpl in Hhd. change ((c :: x) ++ [QUOTE]) with (c :: x ++ [QUOTE]).
      now rewrite strip_words_other_first.
  - intros pre x post Hx.
    destruct (strip_quotes_window pre (QUOTE :: x ++ [QUOTE]) post) as [H _];
      [discriminate | destruct x; discriminate |].
    cbv zeta. rewrite H, strip_words_quote_first.
    destruct x; [contradiction | reflexivity].
Qed.

Lemma strip_quotes_amended_witness :
  contents (cstr "a" ++ [QUOTE] ++ cstr "b c" ++ [QUOTE] ++ cstr "d")
    (result (strip_quotes
               (cstr "a" ++ [QUOTE] ++ cstr "b c" ++ [QUOTE] ++ cstr "d")
               (window (cstr "a") ([QUOTE] ++ cstr "b c" ++ [QUOTE]))))
  = cstr "b c" /\
  contents ([QUOTE] ++ cstr "xy")
    (result (strip_quotes ([QUOTE] ++ cstr "xy")
                          (window [] ([QUOTE] ++ cstr "xy"))))
  = cstr "xy" /\
  contents (cstr "xy" ++ [QUOTE])
    (result (strip_quotes (cstr "xy" ++ [QUOTE])
                          (window [] (cstr "xy" ++ [QUOTE]))))
  = cstr "xy".
Proof.
  destruct strip_quotes_amended as (Hgen & _ & Hlead & Htrail & _).
  split; [|split].
  - apply (Hgen (cstr "a") ([QUOTE] ++ cstr "b c" ++ [QUOTE]) (cstr "d"));
      discriminate.
  - apply (Hlead [] (cstr "xy") []); [discriminate | reflexivity].
  - rewrite <- (app_nil_r (cstr "xy" ++ [QUOTE])) at 1 2.
    apply (Htrail [] (cstr "xy") []); [discriminate | reflexivity].
Defined.

(** C4, as stated, at the view of two quotes: the result is not empty. *)
Lemma strip_quotes_two_quotes :
  contents [QUOTE; QUOTE]
    (result (strip_quotes [QUOTE; QUOTE] (window [] [QUOTE; QUOTE])))
  = [QUOTE] /\
  contents [QUOTE; QUOTE]
    (result (strip_quotes [QUOTE; QUOTE] (window [] [QUOTE; QUOTE])))
  <> [].
Proof. split; [reflexivity | discriminate]. Qed.

(** C10: the code at the two views the claim singles out. On the empty
    view the function dereferences the end pointer and returns a view of
    one character that starts at that pointer; on the view of a single
    quote it returns the one-character view that starts behind the input.
    Neither result is a sub-range of the input. *)
Theorem strip_quotes_out_of_bounds :
  (forall (m : list ascii) (p : nat),
     let s := {| sv_begin := p; sv_end := p |} in
     let r := strip_quotes m s in
     reads r = [p] /\ ~ Forall (in_view s) (reads r) /\
     result r = {| sv_begin := p; sv_end := p + 1 |} /\
     ~ sub_range s (result r)) /\
  (forall pre post : list ascii,
     let m := pre ++ [QUOTE] ++ post in
     let r := strip_quotes m (window pre [QUOTE]) in
     result r = {| sv_begin := length pre + 1; sv_end := length pre + 2 |} /\
     ~ sub_range (window pre [QUOTE]) (result r)).
Proof.
  split.
  - intros m p s r.
    assert (Hr : r = {| result := {| sv_begin := p; sv_end := p + 1 |};
                        reads := [p] |}).
    { unfold r, s, strip_quotes. simpl.
      rewrite Nat.eqb_refl, andb_false_r. simpl. now rewrite Nat.eqb_refl. }
    rewrite Hr. simpl. repeat split.
    + intros HF. inversion HF as [|? ? [_ Hlt] _]; subst. simpl in Hlt. lia.
    + unfold sub_range, s. simpl. lia.
  - intros pre post m r.
    assert (Hr : result r =
                 {| sv_begin := length pre + 1; sv_end := length pre + 2 |}).
    { unfold r, strip_quotes, window. simpl sv_begin. simpl sv_end.
      assert (Hq : deref m (length pre) = QUOTE)
        by (unfold m; now apply deref_middle).
      rewrite Hq. simpl length.
      replace (length pre =? length pre + 1) with false
        by (symmetry; apply Nat.eqb_neq; lia).
      simpl. rewrite Nat.eqb_refl. simpl. f_equal. lia. }
    rewrite Hr. split; [reflexivity|].
    unfold sub_range, window. simpl. lia.
Qed.

(** ** [get_required_string] *)

(** C9: [get_required_string] returns the stored view whenever the key is
    present, an empty view included, throws the missing-option exception
    exactly when the key is absent, and leaves the object as it was. *)
Theorem get_required_string_spec (o : options) (key : list ascii) :
  (forall v : list ascii,
     opts o !! key = Some v -> get_required_string o key = returns v) /\
  (opts o !! key = None <->
   get_required_string o key = throws (out_of_range "option not provided")) /\
  (has_opt o key = true <-> exists v, get_required_string o key = returns v) /\
  (has_opt o key = false <-> exists e, get_required_string o key = throws e) /\
  snd (const_call (fun o' => get_required_string o' key) o) = o.
Proof.
  unfold get_required_string, has_opt, get_string, find_opt, const_call.
  destruct (opts o !! key) as [v|]; simpl; repeat split;
    try discriminate; try congruence; eauto;
    intros [x H]; discriminate H.
Qed.

Lemma get_required_string_spec_witness :
  get_required_string (options_cmd_line (cstr "--first --second=value"))
    (cstr "first") = returns [] /\
  get_required_string (options_cmd_line (cstr "--first --second=value"))
    (cstr "second") = returns (cstr "value").
Proof.
  split.
  - apply (get_required_string_spec
             (options_cmd_line (cstr "--first --second=value"))
             (cstr "first")).
    vm_compute. reflexivity.
  - apply (get_required_string_spec
             (options_cmd_line (cstr "--first --second=value"))
             (cstr "second")).
    vm_compute. reflexivity.
Defined.

(** ** [get_int] *)

Arguments is_digit : simpl never.

Lemma is_digit_not_dash (c : ascii) : is_digit c = true -> is_dash c = false.
Proof.
  unfold is_dash. destruct (Ascii.eqb_spec c DASH) as [->|]; [|reflexivity].
  discriminate.
Qed.

Lemma digits_prefix_app (ds rest : list ascii) :
  Forall (fun c => is_digit c = true) ds -> stops rest ->
  digits_prefix (ds ++ rest) = ds.
Proof.
  intros Hds Hrest. induction Hds as [|c ds Hc _ IH]; simpl.
  - destruct rest as [|c rest]; [reflexivity|]. simpl in Hrest |- *.
    now rewrite Hrest.
  - now rewrite Hc, IH.
Qed.

Lemma digits_prefix_split (s : list ascii) :
  exists rest : list ascii,
    s = digits_prefix s ++ rest /\
    Forall (fun c => is_digit c = true) (digits_prefix s) /\ stops rest.
Proof.
  induction s as [|c s (rest & Hs & Hds & Hrest)]; simpl.
  - exists []. repeat split. constructor.
  - destruct (is_digit c) eqn:Hc.
    + exists rest.
      repeat split; [simpl; congruence | now constructor | assumption].
    + exists (c :: s). repeat split; [constructor | assumption].
Qed.

Lemma from_digits_ok (minus : bool) (ds : list ascii) (v0 : Z) (p : nat)
    (n : Z) :
  from_digits minus ds v0 = ({| ptr := p; ec := errc.ok |}, n) <->
  ds <> [] /\ n = (if minus then - decimal ds else decimal ds)%Z /\
  in_int_range n /\ p = (if minus then 1 else 0) + length ds.
Proof.
  unfold from_digits, in_int_range. destruct ds as [|d ds].
  - split; [discriminate | intros [H _]; contradiction].
  - cbv zeta.
    destruct ((INT_MIN <=? (if minus then - decimal (d :: ds)
                            else decimal (d :: ds)))%Z
              && ((if minus then - decimal (d :: ds)
                   else decimal (d :: ds)) <=? INT_MAX)%Z) eqn:Hr.
    + apply andb_true_iff in Hr. split.
      * intros [= <- <-]. repeat split; try discriminate; lia.
      * intros (_ & -> & _ & ->). reflexivity.
    + apply andb_false_iff in Hr. split; [discriminate|].
      intros (_ & -> & Hn & _). lia.
Qed.

Lemma from_chars_ok (v : list ascii) (v0 n : Z) :
  (exists p, from_chars v v0 = ({| ptr := p; ec := errc.ok |}, n)) <->
  integer_prefix v n /\ in_int_range n.
Proof.
  unfold from_chars. split.
  - intros (p & H).
    destruct v as [|c v]; [discriminate H|].
    destruct (is_dash c) eqn:Hc.
    + apply Ascii.eqb_eq in Hc. subst c.
      apply from_digits_ok in H. destruct H as (Hne & -> & Hr & _).
      split; [|assumption].
      destruct (digits_prefix_split v) as (rest & Hv & Hds & Hrest).
      rewrite Hv at 1. now constructor.
    + apply from_digits_ok in H. destruct H as (Hne & -> & Hr & _).
      split; [|assumption].
      destruct (digits_prefix_split (c :: v)) as (rest & Hv & Hds & Hrest).
      rewrite Hv at 1. now constructor.
  - intros [Hp Hr].
    destruct Hp as [ds rest Hne Hds Hrest|ds rest Hne Hds Hrest].
    + destruct ds as [|d ds]; [contradiction|].
      assert (Hd : is_dash d = false)
        by (apply is_digit_not_dash; now inversion Hds).
      change ((d :: ds) ++ rest) with (d :: (ds ++ rest)). cbv iota.
      rewrite Hd. change (d :: (ds ++ rest)) with ((d :: ds) ++ rest).
      rewrite digits_prefix_app by assumption.
      eexists. apply from_digits_ok.
      split; [first [assumption | discriminate]|].
      split; [reflexivity | split; [assumption | reflexivity]].
    + change (is_dash DASH) with true. cbv iota.
      rewrite digits_prefix_app by assumption.
      eexists. apply from_digits_ok.
      split; [first [assumption | discriminate]|].
      split; [reflexivity | split; [assumption | reflexivity]].
Qed.

Lemma get_int_Some (o : options) (key : list ascii) (n : Z) :
  get_int o key = Some n <->
  exists v : list ascii,
    get_string o key = Some v /\ integer_prefix v n /\ in_int_range n.
Proof.
  unfold get_int. destruct (get_string o key) as [v|].
  - destruct (from_chars v 0) as [[p e] value] eqn:E. simpl ec. split.
    + destruct e; simpl; [|discriminate|discriminate].
      intros [= ->]. exists v. split; [reflexivity|].
      apply (from_chars_ok v 0 n). now exists p.
    + intros (v' & [= <-] & Hp).
      apply (from_chars_ok v 0 n) in Hp. destruct Hp as [p' Hp].
      rewrite E in Hp. injection Hp as _ -> ->. reflexivity.
  - split; [discriminate | intros (v & H & _); discriminate H].
Qed.

(** C1 (amended): [get_int] returns an integer exactly when the key is
    present and its value starts with a base-10 integer: an optional minus
    sign (a plus sign is not accepted) followed by at least one digit,
    which fits [int]. The integer is the one that the longest such prefix
    denotes; what follows the digits is ignored (the value 42abc gives
    42). In every other case, and when the key is absent, the result is
    not-found, and the overload with a default returns the default. *)
Theorem get_int_amended (o : options) (key : list ascii) :
  (forall n : Z,
     get_int o key = Some n <->
     exists v : list ascii,
       get_string o key = Some v /\ integer_prefix v n /\ in_int_range n) /\
  (get_string o key = None -> get_int o key = None) /\
  (forall d n : Z, get_int o key = Some n -> get_int_or o key d = n) /\
  (forall d : Z, get_int o key = None -> get_int_or o key d = d).
Proof.
  split; [intros n; apply get_int_Some|]. split; [|split].
  - intros H. unfold get_int. now rewrite H.
  - intros d n H. unfold get_int_or. now rewrite H.
  - intros d H. unfold get_int_or. now rewrite H.
Qed.

Example decimal_1234 : decimal (cstr "1234") = 1234%Z.
Proof. reflexivity. Qed.

Lemma get_int_amended_witness :
  get_int (options_cmd_line (cstr "--t=-17xyz --u")) (cstr "t")
  = Some (-17)%Z /\
  get_int_or (options_cmd_line (cstr "--t=-17xyz --u")) (cstr "u") 5%Z = 5%Z.
Proof.
  pose proof (get_int_amended (options_cmd_line (cstr "--t=-17xyz --u"))
                (cstr "t")) as (Ht & _).
  pose proof (get_int_amended (options_cmd_line (cstr "--t=-17xyz --u"))
                (cstr "u")) as (_ & _ & _ & Hu).
  split.
  - apply Ht. exists (cstr "-17xyz"). split; [vm_compute; reflexivity|].
    split.
    + change (-17)%Z with (- decimal (cstr "17"))%Z.
      apply (prefix_minus (cstr "17") (cstr "xyz")).
      * discriminate.
      * repeat constructor.
      * reflexivity.
    + unfold in_int_range, INT_MIN, INT_MAX. lia.
  - apply Hu. vm_compute. reflexivity.
Defined.

(** C1, as stated, at the value 42abc: an integer is returned. *)
Lemma get_int_accepts_trailing_text :
  get_string (options_cmd_line (cstr "--t=42abc")) (cstr "t")
  = Some (cstr "42abc") /\
  get_int (options_cmd_line (cstr "--t=42abc")) (cstr "t") = Some 42%Z /\
  get_int (options_cmd_line (cstr "--t=42abc")) (cstr "t") <> None.
Proof.
  split; [vm_compute; reflexivity|].
  split; [vm_compute; reflexivity|].
  vm_compute. discriminate.
Qed.

(** ** The scanning loop *)

Section Loop.
Variable s : list ascii.
Variable single_value : bool.

Lemma parse_loop_eol (fuel c : nat) (f : frame) :
  is_eol (deref s c) = true ->
  parse_loop (S fuel) s single_value c f
  = flush s c (step s single_value c f).
Proof. intros H. simpl. now rewrite H. Qed.

Lemma parse_loop_scan (n : nat) :
  forall (fuel c : nat) (f : frame),
    (forall i, i < n -> is_eol (deref s (c + i)) = false) ->
    parse_loop (n + fuel) s single_value c f
    = parse_loop fuel s single_value (c + n) (scan n s single_value c f).
Proof.
  induction n as [|n IH]; intros fuel c f H.
  - now rewrite Nat.add_0_r.
  - simpl. rewrite <- (Nat.add_0_r c) at 1. rewrite (H 0) by lia.
    rewrite IH.
    + f_equal. lia.
    + intros i Hi. replace (S c + i) with (c + S i) by lia.
      apply H. lia.
Qed.

Lemma scan_add (n m : nat) :
  forall (c : nat) (f : frame),
    scan (n + m) s single_value c f
    = scan m s single_value (c + n) (scan n s single_value c f).
Proof.
  induction n as [|n IH]; intros c f; simpl.
  - now rewrite Nat.add_0_r.
  - rewrite IH. f_equal. lia.
Qed.

Lemma scan_idle (n : nat) (c : nat) (f : frame) :
  (forall i, i < n -> step s single_value (c + i) f = f) ->
  scan n s single_value c f = f.
Proof.
  revert c. induction n as [|n IH]; intros c H; simpl; [reflexivity|].
  rewrite <- (Nat.add_0_r c) at 2. rewrite (H 0) by lia.
  apply IH. intros i Hi. replace (S c + i) with (c + S i) by lia.
  apply H. lia.
Qed.

(** A whole parse of a buffer that ends within the bound. *)
Lemma parse_upto_terminated (bound : nat) (o : options) :
  Forall (fun ch => is_eol ch = false) s -> length s < bound ->
  parse_upto bound s single_value o
  = self (flush s (length s)
            (step s single_value (length s)
               (scan (length s) s single_value 0 (entry o)))).
Proof.
  intros Hs Hb. unfold parse_upto.
  replace bound with (length s + S (bound - length s - 1)) by lia.
  rewrite parse_loop_scan.
  - simpl Nat.add. rewrite parse_loop_eol; [reflexivity|].
    unfold deref. now rewrite nth_overflow by lia.
  - intros i Hi. simpl.
    exact (proj1 (List.Forall_nth _ s) Hs i NUL Hi).
Qed.

(** A parse that uses up the bound. *)
Lemma parse_upto_truncated (bound : nat) (o : options) :
  (forall i, i < bound -> is_eol (deref s i) = false) ->
  parse_upto bound s single_value o
  = self (scan bound s single_value 0 (entry o)).
Proof.
  intros H. unfold parse_upto.
  rewrite <- (Nat.add_0_r bound) at 1.
  now rewrite parse_loop_scan by exact H.
Qed.
End Loop.

(** ** Stopping at the bound *)

Lemma deref_take (n : nat) (s : list ascii) (i : nat) :
  i < n -> deref (take n s) i = deref s i.
Proof.
  unfold deref. revert n i. induction s as [|x s IH]; intros [|n] [|i] H;
    simpl; try reflexivity; try lia.
  apply IH. lia.
Qed.

Lemma view_take (n : nat) (s : list ascii) (i j : nat) :
  j <= n -> view (take n s) i j = view s i j.
Proof.
  intros H. unfold view.
  destruct (Nat.le_gt_cases j i) as [Hji|Hij].
  - replace (j - i) with 0 by lia. reflexivity.
  - rewrite take_drop_commute, take_take.
    rewrite (take_drop_commute s). f_equal. f_equal. lia.
Qed.

Lemma step_ext (s s' : list ascii) (single_value : bool) (c : nat)
    (f : frame) :
  deref s c = deref s' c -> (forall i, view s i c = view s' i c) ->
  step s single_value c f = step s' single_value c f.
Proof.
  intros Hd Hv. unfold step. rewrite Hd, !Hv. reflexivity.
Qed.

Lemma scan_ext (s s' : list ascii) (single_value : bool) (n : nat) :
  forall (c : nat) (f : frame),
    (forall i, i < c + n -> deref s i = deref s' i) ->
    (forall i j, j < c + n -> view s i j = view s' i j) ->
    scan n s single_value c f = scan n s' single_value c f.
Proof.
  induction n as [|n IH]; intros c f Hd Hv; simpl; [reflexivity|].
  rewrite (step_ext s s') by (intros; first [apply Hd | apply Hv]; lia).
  apply IH; intros; first [apply Hd | apply Hv]; lia.
Qed.

Lemma unterminated_deref (bound : nat) (s : list ascii) :
  unterminated bound s = true ->
  forall i, i < bound -> is_eol (deref s i) = false.
Proof.
  unfold unterminated. intros H i Hi. apply andb_true_iff in H.
  destruct H as [Hlen Hall]. apply Nat.leb_le in Hlen.
  rewrite forallb_forall in Hall.
  rewrite <- (deref_take bound) by assumption.
  apply negb_true_iff. apply Hall. unfold deref. apply nth_In.
  rewrite length_take. lia.
Qed.

Lemma unterminated_take_eq (bound : nat) (s s' : list ascii) :
  take bound s' = take bound s ->
  unterminated bound s = true -> unterminated bound s' = true.
Proof.
  unfold unterminated. intros Hs' H. rewrite Hs'.
  apply andb_true_iff in H. destruct H as [Hlen Hall].
  rewrite Hall, andb_true_r. apply Nat.leb_le in Hlen. apply Nat.leb_le.
  assert (Hl : length (take bound s') = length (take bound s))
    by now rewrite Hs'.
  rewrite !length_take in Hl. lia.
Qed.

Lemma scan_take_eq (bound : nat) (s s' : list ascii) (single_value : bool)
    (f : frame) :
  take bound s' = take bound s ->
  scan bound s' single_value 0 f = scan bound s single_value 0 f.
Proof.
  intros Hs'. apply scan_ext.
  - intros i Hi. rewrite <- (deref_take bound s') by assumption.
    rewrite Hs'. now apply deref_take.
  - intros i j Hj. rewrite <- (view_take bound s') by lia.
    rewrite Hs'. apply view_take. lia.
Qed.

Lemma parse_truncated (s : list ascii) (single_value : bool) (o : options) :
  unterminated max_length s = true ->
  parse s single_value o = self (scan max_length s single_value 0 (entry o)).
Proof.
  intros H. unfold parse. apply parse_upto_truncated.
  now apply unterminated_deref.
Qed.

(** C2 (amended): when a parse stops because the scanned length reaches
    the bound, no terminator being among the first 4096 characters, there
    is no end-of-input flush. The object holds what the loop body stored
    while it consumed these characters, that is the tokens closed before
    the bound by whitespace or by a closing quote; the token in flight at
    the bound (a dangling key, a dangling value, a dangling quoted value)
    is lost, and so is the content past the bound. *)
Theorem parse_at_bound_amended :
  (forall (s : list ascii) (single_value : bool) (o : options),
     unterminated max_length s = true ->
     parse s single_value o
     = self (scan max_length s single_value 0 (entry o)) /\
     forall s' : list ascii,
       take max_length s' = take max_length s ->
       parse s' single_value o = parse s single_value o) /\
  (let o := options_cmd_line (cstr "-a=1 b " ++ repeat SP 4087 ++ cstr "-k") in
   has_opt o (cstr "k") = false /\
   get_string o (cstr "a") = Some (cstr "1") /\ args o = [cstr "b"]) /\
  (let o := options_cmd_line (repeat SP 4092 ++ cstr "-k=v") in
   has_opt o (cstr "k") = false) /\
  (let o := options_cmd_line (repeat SP 4093 ++ cstr "xyz") in
   arg_count o = 0) /\
  (let o := options_cmd_line (repeat SP 4093 ++ [QUOTE] ++ cstr "xy") in
   arg_count o = 0).
Proof.
  split; [|vm_compute; repeat split].
  intros s single_value o H. split; [now apply parse_truncated|].
  intros s' Hs'.
  assert (H' : unterminated max_length s' = true)
    by now apply (unterminated_take_eq max_length s s').
  rewrite !parse_truncated by assumption. f_equal.
  now apply scan_take_eq.
Qed.

Lemma parse_at_bound_amended_witness :
  parse (repeat SP 4094 ++ cstr "-k=v and more") false empty_options
  = self (scan max_length (repeat SP 4094 ++ cstr "-k=v and more") false 0
            (entry empty_options)) /\
  parse (repeat SP 4094 ++ cstr "-k") false empty_options
  = parse (repeat SP 4094 ++ cstr "-k=v and more") false empty_options.
Proof.
  destruct parse_at_bound_amended as [H _].
  destruct (H (repeat SP 4094 ++ cstr "-k=v and more") false empty_options)
    as [H1 H2]; [vm_compute; reflexivity|].
  split; [exact H1|].
  apply H2. vm_compute. reflexivity.
Defined.

(** C2, as stated, at a dangling key that ends at the bound: the key is
    not recorded, while the flush that the claim describes would have
    recorded it. *)
Lemma parse_at_bound_no_flush :
  length (repeat SP 4094 ++ cstr "-k") = max_length /\
  has_opt (options_cmd_line (repeat SP 4094 ++ cstr "-k")) (cstr "k")
  = false /\
  has_opt (self (flush (repeat SP 4094 ++ cstr "-k") max_length
                   (scan max_length (repeat SP 4094 ++ cstr "-k") false 0
                      (entry empty_options))))
          (cstr "k")
  = true.
Proof. vm_compute. repeat split. Qed.

(** ** Invariants of the scan *)

Lemma view_nonempty (s : list ascii) (i j : nat) :
  i < j -> j <= length s -> view s i j <> [].
Proof.
  intros Hij Hj Hv. apply (f_equal (@length ascii)) in Hv.
  rewrite length_view in Hv by assumption. simpl in Hv. lia.
Qed.



Ltac split_tests :=
  repeat match goal with
         | |- context [if ?b then _ else _] => destruct b eqn:?
         end.

Lemma wf_entry (s : list ascii) (o : options) : wf s 0 (entry o).
Proof. split; [lia | reflexivity]. Qed.

Lemma wf_step (s : list ascii) (single_value : bool) (c : nat) (f : frame) :
  wf s c f -> is_eol (deref s c) = false ->
  wf s (S c) (step s single_value c f).
Proof.
  intros [Hc Hf] Hch. apply deref_not_eol_lt in Hch.
  split; [lia|].
  destruct f as [p ts k o]. simpl in Hf.
  destruct p; unfold step; simpl ps.
  - subst k. simpl. split_tests; simpl; try reflexivity; lia.
  - subst k. split_tests; simpl; try reflexivity. split; [reflexivity | lia].
  - subst k. split_tests; simpl; try reflexivity. split; [reflexivity | lia].
  - destruct Hf as [-> Hts]. simpl. split_tests; simpl; try reflexivity.
    + split; [lia|]. intros Hk. apply view_nonempty in Hk; [easy | lia | lia].
    + split; [reflexivity | lia].
  - destruct Hf as [Hle Hk]. simpl. split_tests; simpl; try reflexivity.
    + lia.
    + split; [lia|]. intros Hk'. apply Hk in Hk'. lia.
  - simpl. split_tests; simpl; try reflexivity. lia.
Qed.

Lemma wf_scan (s : list ascii) (single_value : bool) (n : nat) :
  forall (c : nat) (f : frame),
    wf s c f -> (forall i, i < n -> is_eol (deref s (c + i)) = false) ->
    wf s (c + n) (scan n s single_value c f).
Proof.
  induction n as [|n IH]; intros c f Hf H; simpl.
  - now rewrite Nat.add_0_r.
  - replace (c + S n) with (S c + n) by lia. apply IH.
    + apply wf_step; [assumption|]. rewrite <- (Nat.add_0_r c). apply H. lia.
    + intros i Hi. replace (S c + i) with (c + S i) by lia. apply H. lia.
Qed.

(** ** The end of the input seen as one more blank *)

Lemma view_app_le (s x : list ascii) (i j : nat) :
  j <= length s -> view (s ++ x) i j = view s i j.
Proof.
  intros H. rewrite <- (view_take (length s) (s ++ x)) by assumption.
  now rewrite take_app_length.
Qed.

Lemma deref_end (s : list ascii) : deref s (length s) = NUL.
Proof. unfold deref. now rewrite nth_overflow. Qed.

Lemma deref_blank (s : list ascii) : deref (s ++ [SP]) (length s) = SP.
Proof. now apply deref_middle. Qed.

(** In multi-token mode the terminator closes the token in flight as a
    blank would, unless a quote is open. *)
Lemma end_as_space (s : list ascii) (g : frame) :
  wf s (length s) g -> ps g <> parse_state.quoted_value ->
  self (flush s (length s) (step s false (length s) g))
  = self (step (s ++ [SP]) false (length s) g).
Proof.
  intros [_ Hg] Hq. destruct g as [p ts k o]. simpl in Hg, Hq.
  unfold step. rewrite deref_end, deref_blank.
  rewrite !(view_app_le s [SP]) by lia.
  destruct p; simpl ps; try contradiction; cbn -[view Nat.ltb].
  - subst k. simpl. now rewrite Nat.ltb_irrefl.
  - subst k. simpl. now rewrite Nat.ltb_irrefl.
  - subst k. simpl. now rewrite Nat.ltb_irrefl.
  - destruct Hg as [-> Hts]. unfold flush. simpl.
    destruct (ts <? length s); reflexivity.
  - destruct Hg as [Hle Hk]. unfold flush. simpl.
    destruct k as [|x k]; simpl; [|reflexivity].
    assert (Hlt : (ts <? length s) = true) by (apply Nat.ltb_lt; auto).
    now rewrite Hlt.
Qed.

Lemma step_blank_quoted (s : list ascii) (single_value : bool) (c : nat)
    (g : frame) :
  deref s c = SP -> ps g = parse_state.quoted_value ->
  ps (step s single_value c g) = parse_state.quoted_value.
Proof.
  intros Hc Hg. unfold step. rewrite Hg, Hc. assumption.
Qed.

(** A whole multi-token parse of a terminated buffer within the bound, as
    a scan of the buffer followed by one blank. *)
Lemma parse_as_scan (bound : nat) (s : list ascii) (o : options) :
  Forall (fun ch => is_eol ch = false) s -> length s < bound ->
  ps (scan (length s + 1) (s ++ [SP]) false 0 (entry o))
  <> parse_state.quoted_value ->
  parse_upto bound s false o
  = self (scan (length s + 1) (s ++ [SP]) false 0 (entry o)).
Proof.
  intros Hs Hb Hq.
  rewrite parse_upto_terminated by assumption.
  rewrite scan_add in Hq |- *. simpl in Hq |- *.
  assert (He : scan (length s) (s ++ [SP]) false 0 (entry o)
               = scan (length s) s false 0 (entry o)).
  { apply scan_ext.
    - intros i Hi. now apply deref_app_l.
    - intros i j Hj. apply view_app_le. simpl in Hj. lia. }
  rewrite He in Hq |- *.
  apply end_as_space.
  - apply (wf_scan s false (length s) 0); [apply wf_entry|].
    intros i Hi. exact (proj1 (List.Forall_nth _ s) Hs i NUL Hi).
  - intros Hquoted. apply Hq. apply step_blank_quoted; [|assumption].
    apply deref_blank.
Qed.

(** ** Well-formed command lines *)

(** *** Character classes *)

Lemma key_char_true (c : ascii) :
  key_char c = true ->
  is_whitespace c = false /\ is_equal_sign c = false /\ is_eol c = false.
Proof.
  unfold key_char. intros H. apply negb_true_iff in H.
  apply orb_false_iff in H. destruct H as [H He].
  apply orb_false_iff in H. tauto.
Qed.

Lemma value_char_true (c : ascii) :
  value_char c = true -> is_whitespace c = false /\ is_eol c = false.
Proof.
  unfold value_char. intros H. apply negb_true_iff in H.
  now apply orb_false_iff in H.
Qed.

Lemma quoted_char_true (c : ascii) :
  quoted_char c = true -> is_quote c = false /\ is_eol c = false.
Proof.
  unfold quoted_char. intros H. apply negb_true_iff in H.
  now apply orb_false_iff in H.
Qed.

Lemma forallb_deref (P : ascii -> bool) (l r : list ascii) (i : nat) :
  forallb P l = true -> i < length l -> P (deref (l ++ r) i) = true.
Proof.
  intros H Hi. rewrite deref_app_l by assumption.
  rewrite forallb_forall in H. apply H. unfold deref. now apply nth_In.
Qed.


(** *** Runs of the state machine *)







Lemma drop_add (s x : list ascii) (c n : nat) :
  drop c s = x -> drop (c + n) s = drop n x.
Proof. intros <-. now rewrite drop_drop. Qed.

Lemma deref_from (s x : list ascii) (c i : nat) :
  drop c s = x -> deref s (c + i) = deref x i.
Proof. intros <-. apply deref_drop. Qed.

Lemma view_from (s x : list ascii) (c i j : nat) :
  drop c s = x -> view s (c + i) (c + j) = view x i j.
Proof. intros <-. apply view_drop. Qed.

Section Runs.
Variable s : list ascii.

Lemma step_key_idle (single_value : bool) (c ts : nat) (k : list ascii)
    (o : options) :
  key_char (deref s c) = true ->
  step s single_value c (mk_frame parse_state.key ts k o)
  = mk_frame parse_state.key ts k o.
Proof.
  intros H. apply key_char_true in H. destruct H as (Hw & He & _).
  unfold step. simpl ps. now rewrite Hw, He.
Qed.

Lemma step_value_idle (single_value : bool) (c ts : nat) (k : list ascii)
    (o : options) :
  value_char (deref s c) = true ->
  ts < c \/ is_quote (deref s c) = false ->
  step s single_value c (mk_frame parse_state.value ts k o)
  = mk_frame parse_state.value ts k o.
Proof.
  intros H Hq. apply value_char_true in H. destruct H as (Hw & _).
  unfold step. simpl ps. simpl token_start. rewrite Hw. simpl.
  destruct Hq as [Hlt | Hq].
  - replace (ts =? c) with false by (symmetry; apply Nat.eqb_neq; lia).
    now rewrite andb_false_r.
  - now rewrite Hq.
Qed.

Lemma step_value_idle_single (c ts : nat) (k : list ascii) (o : options) :
  ts < c ->
  step s true c (mk_frame parse_state.value ts k o)
  = mk_frame parse_state.value ts k o.
Proof.
  intros Hlt. unfold step. simpl ps. simpl token_start.
  replace (ts =? c) with false by (symmetry; apply Nat.eqb_neq; lia).
  now rewrite !andb_false_r.
Qed.

Lemma step_quoted_idle (single_value : bool) (c ts : nat) (k : list ascii)
    (o : options) :
  is_quote (deref s c) = false ->
  step s single_value c (mk_frame parse_state.quoted_value ts k o)
  = mk_frame parse_state.quoted_value ts k o.
Proof. intros H. unfold step. simpl ps. now rewrite H. Qed.

Lemma scan_key_body (single_value : bool) (c ts : nat) (k : list ascii)
    (o : options) (body rest : list ascii) :
  drop c s = body ++ rest -> forallb key_char body = true ->
  scan (length body) s single_value c (mk_frame parse_state.key ts k o)
  = mk_frame parse_state.key ts k o.
Proof.
  intros Hs Hb. apply scan_idle. intros i Hi. apply step_key_idle.
  rewrite (deref_from s _ c i Hs). now apply forallb_deref.
Qed.

Lemma scan_value_body (single_value : bool) (c ts : nat) (k : list ascii)
    (o : options) (body rest : list ascii) :
  drop c s = body ++ rest -> forallb value_char body = true ->
  ts <= c -> ts < c \/ is_quote (hd NUL body) = false ->
  scan (length body) s single_value c (mk_frame parse_state.value ts k o)
  = mk_frame parse_state.value ts k o.
Proof.
  intros Hs Hb Hle Hq. apply scan_idle. intros i Hi. apply step_value_idle.
  - rewrite (deref_from s _ c i Hs). now apply forallb_deref.
  - destruct i as [|i]; [|left; lia].
    destruct Hq as [Hlt | Hq]; [left; lia | right].
    rewrite (deref_from s _ c 0 Hs).
    destruct body; [simpl in Hi; lia | exact Hq].
Qed.

Lemma scan_value_body_single (n c ts : nat) (k : list ascii) (o : options) :
  ts < c ->
  scan n s true c (mk_frame parse_state.value ts k o)
  = mk_frame parse_state.value ts k o.
Proof.
  intros Hlt. apply scan_idle. intros i Hi. apply step_value_idle_single.
  lia.
Qed.

Lemma scan_quoted_body (single_value : bool) (c ts : nat) (k : list ascii)
    (o : options) (body rest : list ascii) :
  drop c s = body ++ rest -> forallb quoted_char body = true ->
  scan (length body) s single_value c
    (mk_frame parse_state.quoted_value ts k o)
  = mk_frame parse_state.quoted_value ts k o.
Proof.
  intros Hs Hb. apply scan_idle. intros i Hi. apply step_quoted_idle.
  rewrite (deref_from s _ c i Hs).
  apply quoted_char_true. now apply forallb_deref.
Qed.

End Runs.

(** *** Single transitions *)

Section Transitions.
Variable s : list ascii.
Variable single_value : bool.

Lemma step_none_blank (c ts : nat) (k : list ascii) (o : options) :
  deref s c = SP ->
  step s single_value c (mk_frame parse_state.none ts k o)
  = mk_frame parse_state.none ts k o.
Proof. intros H. unfold step. now rewrite H. Qed.

Lemma step_none_dash (c ts : nat) (o : options) :
  deref s c = DASH ->
  step s single_value c (mk_frame parse_state.none ts [] o)
  = mk_frame parse_state.key_prefix ts [] o.
Proof. intros H. unfold step. now rewrite H. Qed.

Lemma step_none_quote (c ts : nat) (k : list ascii) (o : options) :
  deref s c = QUOTE ->
  step s single_value c (mk_frame parse_state.none ts k o)
  = mk_frame parse_state.quoted_value c k o.
Proof. intros H. unfold step. now rewrite H. Qed.

Lemma step_none_other (c ts : nat) (k : list ascii) (o : options) :
  is_whitespace (deref s c) = false -> is_dash (deref s c) = false ->
  is_quote (deref s c) = false ->
  step s single_value c (mk_frame parse_state.none ts k o)
  = mk_frame parse_state.value c k o.
Proof. intros Hw Hd Hq. unfold step. simpl ps. now rewrite Hw, Hd, Hq. Qed.

Lemma step_key_prefix_dash (c ts : nat) (k : list ascii) (o : options) :
  deref s c = DASH ->
  step s single_value c (mk_frame parse_state.key_prefix ts k o)
  = mk_frame parse_state.long_key_prefix ts k o.
Proof. intros H. unfold step. now rewrite H. Qed.

Lemma step_key_prefix_other (c ts : nat) (k : list ascii) (o : options) :
  is_dash (deref s c) = false -> is_whitespace (deref s c) = false ->
  step s single_value c (mk_frame parse_state.key_prefix ts k o)
  = mk_frame parse_state.key c k o.
Proof. intros Hd Hw. unfold step. simpl ps. now rewrite Hd, Hw. Qed.

Lemma step_long_key_prefix_other (c ts : nat) (k : list ascii)
    (o : options) :
  is_whitespace (deref s c) = false ->
  step s single_value c (mk_frame parse_state.long_key_prefix ts k o)
  = mk_frame parse_state.key c k o.
Proof. intros Hw. unfold step. simpl ps. now rewrite Hw. Qed.

Lemma step_key_blank (c ts : nat) (k : list ascii) (o : options) :
  deref s c = SP -> ts < c ->
  step s single_value c (mk_frame parse_state.key ts k o)
  = mk_frame parse_state.none ts k
      {| a := a o; opts := subscript (opts o) (view s ts c) |}.
Proof.
  intros H Hlt. unfold step. rewrite H. simpl.
  apply Nat.ltb_lt in Hlt. now rewrite Hlt.
Qed.

Lemma step_key_equal (c ts : nat) (k : list ascii) (o : options) :
  deref s c = EQUAL ->
  step s single_value c (mk_frame parse_state.key ts k o)
  = mk_frame parse_state.value (c + 1) (view s ts c) o.
Proof. intros H. unfold step. now rewrite H. Qed.

Lemma step_value_quote (c : nat) (k : list ascii) (o : options) :
  deref s c = QUOTE ->
  step s single_value c (mk_frame parse_state.value c k o)
  = mk_frame parse_state.quoted_value c k o.
Proof.
  intros H. unfold step. rewrite H. simpl. now rewrite Nat.eqb_refl.
Qed.

Lemma step_quoted_quote (c ts : nat) (k : list ascii) (o : options) :
  deref s c = QUOTE ->
  step s single_value c (mk_frame parse_state.quoted_value ts k o)
  = mk_frame parse_state.none ts []
      (if nonempty k
       then {| a := a o; opts := <[k := view s (ts + 1) c]> (opts o) |}
       else {| a := a o ++ [view s (ts + 1) c]; opts := opts o |}).
Proof.
  intros H. unfold step. rewrite H. simpl. now destruct (nonempty k).
Qed.

End Transitions.

Lemma step_value_blank (s : list ascii) (c ts : nat) (k : list ascii)
    (o : options) :
  deref s c = SP ->
  step s false c (mk_frame parse_state.value ts k o)
  = mk_frame parse_state.none ts []
      (if nonempty k
       then {| a := a o; opts := <[k := view s ts c]> (opts o) |}
       else {| a := a o ++ [view s ts c]; opts := opts o |}).
Proof.
  intros H. unfold step. rewrite H. simpl. now destruct (nonempty k).
Qed.

Lemma deref_at (s x : list ascii) (c i : nat) :
  drop c s = x -> deref s (i + c) = deref x i.
Proof. intros H. rewrite Nat.add_comm. now apply deref_from. Qed.

Lemma drop_at (s x : list ascii) (c n : nat) :
  drop c s = x -> drop (n + c) s = drop n x.
Proof. intros H. rewrite Nat.add_comm. now apply drop_add. Qed.

(** From [none], the dashes and the key lead to the state [key], with the
    token started behind the dashes. *)
Lemma scan_key_head (s : list ascii) (single_value : bool) (c ts : nat)
    (o : options) (long : bool) (k rest : list ascii) :
  drop c s = dashes long ++ k ++ rest -> valid_key k = true ->
  scan (length (dashes long) + length k) s single_value c
    (mk_frame parse_state.none ts [] o)
  = mk_frame parse_state.key (c + length (dashes long)) [] o.
Proof.
  intros Hs Hk. destruct k as [|x k]; [discriminate Hk|].
  simpl in Hk. apply andb_true_iff in Hk. destruct Hk as [Hd Hk].
  apply negb_true_iff in Hd. apply andb_true_iff in Hk.
  destruct Hk as [Hx Hk].
  destruct (key_char_true x Hx) as (Hw & _ & _).
  destruct long; simpl dashes in *; simpl length.
  - pose proof (deref_at s _ c 0 Hs) as H0.
    pose proof (deref_at s _ c 1 Hs) as H1.
    pose proof (deref_at s _ c 2 Hs) as H2.
    pose proof (drop_at s _ c 3 Hs) as H3.
    simpl in H0, H1, H2, H3.
    simpl scan.
    rewrite step_none_dash by assumption.
    rewrite step_key_prefix_dash by assumption.
    rewrite step_long_key_prefix_other by (now rewrite H2).
    rewrite (scan_key_body s single_value (S (S (S c))) _ _ _ k rest)
      by assumption.
    f_equal. lia.
  - pose proof (deref_at s _ c 0 Hs) as H0.
    pose proof (deref_at s _ c 1 Hs) as H1.
    pose proof (drop_at s _ c 2 Hs) as H2.
    simpl in H0, H1, H2.
    simpl scan.
    rewrite step_none_dash by assumption.
    rewrite step_key_prefix_other by (now rewrite H1).
    rewrite (scan_key_body s single_value (S (S c)) _ _ _ k rest)
      by assumption.
    f_equal. lia.
Qed.

Lemma valid_key_inv (k : list ascii) :
  valid_key k = true -> 0 < length k /\ forallb key_char k = true.
Proof.
  destruct k as [|x k]; [discriminate|]. simpl. intros H.
  apply andb_true_iff in H. destruct H as [_ H]. split; [lia | assumption].
Qed.

(** *** Tokens hold no terminator *)

Lemma forallb_not_eol (P : ascii -> bool) (l : list ascii) :
  (forall ch, P ch = true -> is_eol ch = false) ->
  forallb P l = true -> Forall (fun ch => is_eol ch = false) l.
Proof.
  intros HP H. apply List.Forall_forall. intros ch Hin.
  rewrite forallb_forall in H. auto.
Qed.

Lemma valid_key_not_eol (k : list ascii) :
  valid_key k = true -> Forall (fun ch => is_eol ch = false) k.
Proof.
  intros H. apply valid_key_inv in H. destruct H as [_ H].
  apply (forallb_not_eol key_char); [|assumption].
  intros ch Hch. now apply key_char_true in Hch.
Qed.

Lemma dashes_not_eol (long : bool) :
  Forall (fun ch => is_eol ch = false) (dashes long).
Proof. destruct long; repeat constructor. Qed.

Lemma spell_not_eol (t : token) :
  valid_token t = true -> Forall (fun ch => is_eol ch = false) (spell t).
Proof.
  assert (Hv : forall v, forallb value_char v = true ->
                         Forall (fun ch => is_eol ch = false) v).
  { intros v. apply forallb_not_eol. intros ch Hch.
    now apply value_char_true in Hch. }
  assert (Hq : forall q, valid_quoted q = true ->
                         Forall (fun ch => is_eol ch = false) q).
  { intros q. apply forallb_not_eol. intros ch Hch.
    now apply quoted_char_true in Hch. }
  destruct t as [long k|long k v|long k q|w|q]; simpl; intros H.
  - apply Forall_app. split; [apply dashes_not_eol|].
    now apply valid_key_not_eol.
  - apply andb_true_iff in H. destruct H as [Hk H].
    apply andb_true_iff in H. destruct H as [_ H].
    apply Forall_app. split; [apply dashes_not_eol|].
    apply Forall_app. split; [now apply valid_key_not_eol|].
    constructor; [reflexivity | now apply Hv].
  - apply andb_true_iff in H. destruct H as [Hk H].
    apply Forall_app. split; [apply dashes_not_eol|].
    apply Forall_app. split; [now apply valid_key_not_eol|].
    constructor; [reflexivity|]. constructor; [reflexivity|].
    apply Forall_app. split; [now apply Hq | repeat constructor].
  - destruct w as [|x w]; [discriminate H|].
    apply andb_true_iff in H. destruct H as [_ H]. now apply Hv.
  - constructor; [reflexivity|].
    apply Forall_app. split; [now apply Hq | repeat constructor].
Qed.

(** *** One token, then a blank *)

Lemma scan_S (n : nat) (s : list ascii) (single_value : bool) (c : nat)
    (f : frame) :
  scan (S n) s single_value c f
  = scan n s single_value (c + 1) (step s single_value c f).
Proof. simpl. f_equal. lia. Qed.

Lemma scan_0 (s : list ascii) (single_value : bool) (c : nat) (f : frame) :
  scan 0 s single_value c f = f.
Proof. reflexivity. Qed.

Lemma drop_behind (s x y : list ascii) (c : nat) :
  drop c s = x ++ y -> drop (c + length x) s = y.
Proof.
  intros H. rewrite (drop_add s _ c (length x) H). apply drop_app_length.
Qed.

Lemma drop_next (s y : list ascii) (x : ascii) (c : nat) :
  drop c s = x :: y -> drop (c + 1) s = y.
Proof. intros H. now rewrite (drop_add s _ c 1 H). Qed.

Lemma deref_head (s y : list ascii) (x : ascii) (c : nat) :
  drop c s = x :: y -> deref s c = x.
Proof.
  intros H. rewrite <- (Nat.add_0_r c). now rewrite (deref_from s _ c 0 H).
Qed.

Lemma view_head (s y z : list ascii) (c : nat) :
  drop c s = y ++ z -> view s c (c + length y) = y.
Proof.
  intros H. rewrite <- (Nat.add_0_r c) at 1.
  rewrite (view_from s _ c 0 (length y) H). apply view_prefix.
Qed.

(** After the key: the state [key] at the cursor behind it. *)
Lemma scan_key (s : list ascii) (single_value : bool) (c ts : nat)
    (o : options) (long : bool) (k rest : list ascii) :
  drop c s = dashes long ++ k ++ rest -> valid_key k = true ->
  let t' := c + length (dashes long) in
  let c' := c + (length (dashes long) + length k) in
  t' < c' /\ drop c' s = rest /\ view s t' c' = k /\
  scan (length (dashes long) + length k) s single_value c
    (mk_frame parse_state.none ts [] o)
  = mk_frame parse_state.key t' [] o.
Proof.
  intros Hs Hk. cbv zeta.
  destruct (valid_key_inv k Hk) as [Hlen _].
  split; [lia|]. split; [|split].
  - rewrite app_assoc in Hs. apply drop_behind in Hs.
    now rewrite length_app in Hs.
  - pose proof (drop_behind s _ _ c Hs) as H1.
    rewrite Nat.add_assoc. now apply (view_head s k rest).
  - now apply (scan_key_head s single_value c ts o long k rest).
Qed.

Lemma valid_key_nonempty (k : list ascii) :
  valid_key k = true -> nonempty k = true.
Proof. destruct k; [discriminate | reflexivity]. Qed.

Lemma scan_spell (s : list ascii) (single_value : bool) (c ts : nat)
    (o : options) (t : token) (rest : list ascii) :
  drop c s = spell t ++ rest -> valid_token t = true ->
  scan (length (spell t)) s single_value c (mk_frame parse_state.none ts [] o)
  = held t c o.
Proof.
  intros Hs Ht. destruct t as [long k|long k v|long k q|w|q];
    cbn [spell valid_token effect held] in Hs, Ht |- *; simpl in Hs, Ht.
  - (* -key *)
    rewrite <- app_assoc in Hs.
    destruct (scan_key s single_value c ts o long k _ Hs Ht)
      as (_ & _ & _ & Hscan).
    now rewrite length_app.
  - (* -key=value *)
    apply andb_true_iff in Ht. destruct Ht as [Hk Hv].
    apply andb_true_iff in Hv. destruct Hv as [Hq Hv].
    apply negb_true_iff in Hq.
    rewrite <- !app_assoc in Hs. simpl in Hs.
    destruct (scan_key s single_value c ts o long k _ Hs Hk)
      as (Hlt & Hrest & Hview & Hscan).
    replace (length (dashes long ++ k ++ EQUAL :: v))
      with ((length (dashes long) + length k) + S (length v))
      by (rewrite !length_app; simpl; lia).
    rewrite scan_add, Hscan.
    rewrite scan_S, step_key_equal by now apply (deref_head s _ _ _ Hrest).
    rewrite Hview. apply drop_next in Hrest.
    now rewrite (scan_value_body s single_value _ _ k o v rest)
      by (try assumption; try lia; now right).
  - (* -key="quoted value" *)
    apply andb_true_iff in Ht. destruct Ht as [Hk Hq].
    rewrite <- !app_assoc in Hs. simpl in Hs.
    rewrite <- app_assoc in Hs. simpl in Hs.
    destruct (scan_key s single_value c ts o long k _ Hs Hk)
      as (Hlt & Hrest & Hview & Hscan).
    replace (length (dashes long ++ k ++ EQUAL :: QUOTE :: q ++ [QUOTE]))
      with ((length (dashes long) + length k) + S (S (length q + S 0)))
      by (rewrite !length_app; simpl; rewrite length_app; simpl; lia).
    rewrite scan_add, Hscan.
    rewrite scan_S, step_key_equal by now apply (deref_head s _ _ _ Hrest).
    rewrite Hview. apply drop_next in Hrest.
    rewrite scan_S, step_value_quote by now apply (deref_head s _ _ _ Hrest).
    apply drop_next in Hrest.
    rewrite scan_add.
    rewrite (scan_quoted_body s single_value _ _ k o q (QUOTE :: rest))
      by assumption.
    pose proof (view_head s _ _ _ Hrest) as Hval.
    apply drop_behind in Hrest.
    rewrite scan_S, step_quoted_quote by now apply (deref_head s _ _ _ Hrest).
    rewrite scan_0, Hval, (valid_key_nonempty k Hk). reflexivity.
  - (* token *)
    destruct w as [|x w]; [discriminate Ht|].
    apply andb_true_iff in Ht. destruct Ht as [Hx Hw].
    apply negb_true_iff, orb_false_iff in Hx. destruct Hx as [Hd Hq].
    simpl in Hw. apply andb_true_iff in Hw. destruct Hw as [Hxv Hw].
    destruct (value_char_true x Hxv) as [Hws _].
    simpl in Hs. pose proof (deref_head s _ _ _ Hs) as Hx.
    simpl length.
    rewrite scan_S, step_none_other by now rewrite Hx.
    apply drop_next in Hs.
    now rewrite (scan_value_body s single_value (c + 1) c [] o w rest)
      by (try assumption; try lia; left; lia).
  - (* "quoted token" *)
    rewrite <- app_assoc in Hs. simpl in Hs.
    match goal with
    | |- context [scan ?n] =>
        replace n with (S (length q + S 0))
          by (simpl; rewrite length_app; simpl; lia)
    end.
    rewrite scan_S, step_none_quote by now apply (deref_head s _ _ _ Hs).
    apply drop_next in Hs.
    rewrite scan_add.
    rewrite (scan_quoted_body s single_value (c + 1) c [] o q (QUOTE :: rest))
      by assumption.
    pose proof (view_head s _ _ _ Hs) as Hval.
    apply drop_behind in Hs.
    rewrite scan_S, step_quoted_quote by now apply (deref_head s _ _ _ Hs).
    rewrite scan_0, Hval. reflexivity.
Qed.

(** The span that a token in flight covers when the cursor is behind the
    token. *)
Lemma held_view (s : list ascii) (c : nat) (o : options) (t : token)
    (rest : list ascii) :
  drop c s = spell t ++ rest -> valid_token t = true ->
  let c' := c + length (spell t) in
  match t with
  | flag _ k =>
      token_start (held t c o) < c' /\
      view s (token_start (held t c o)) c' = k
  | keyed _ k v =>
      token_start (held t c o) <= c' /\
      view s (token_start (held t c o)) c' = v /\ nonempty k = true
  | word w =>
      token_start (held t c o) < c' /\
      view s (token_start (held t c o)) c' = w
  | _ => True
  end.
Proof.
  intros Hs Ht. destruct t as [long k|long k v|long k q|w|q];
    cbn [spell valid_token held token_start] in Hs, Ht |- *;
    try exact I.
  - rewrite <- app_assoc in Hs.
    destruct (scan_key s false c 0 o long k _ Hs Ht) as (Hlt & _ & Hv & _).
    rewrite length_app. split; assumption.
  - apply andb_true_iff in Ht. destruct Ht as [Hk Hv].
    rewrite <- !app_assoc in Hs. simpl in Hs.
    destruct (scan_key s false c 0 o long k _ Hs Hk) as (_ & Hrest & _ & _).
    apply drop_next in Hrest.
    pose proof (view_head s _ _ _ Hrest) as Hval.
    replace (c + length (dashes long ++ k ++ EQUAL :: v))
      with (c + (length (dashes long) + length k) + 1 + length v)
      by (rewrite !length_app; simpl; lia).
    split; [lia|]. split; [assumption | now apply valid_key_nonempty].
  - split; [destruct w; [discriminate Ht | simpl; lia]|].
    now apply (view_head s w rest).
Qed.

(** In multi-token mode, a blank behind the token closes it. *)
Lemma held_blank (s : list ascii) (c : nat) (o : options) (t : token)
    (rest : list ascii) :
  drop c s = spell t ++ SP :: rest -> valid_token t = true ->
  step s false (c + length (spell t)) (held t c o)
  = mk_frame parse_state.none (token_start (held t c o)) [] (effect o t).
Proof.
  intros Hs Ht.
  pose proof (held_view s c o t _ Hs Ht) as Hv. cbv zeta in Hv.
  apply drop_behind in Hs. apply deref_head in Hs.
  destruct t as [long k|long k v|long k q|w|q];
    cbn [held token_start effect] in Hv |- *.
  - destruct Hv as [Hlt Hv].
    rewrite step_key_blank by assumption. now rewrite Hv.
  - destruct Hv as (_ & Hv & Hne).
    rewrite step_value_blank by assumption. now rewrite Hv, Hne.
  - now apply step_none_blank.
  - destruct Hv as [_ Hv].
    rewrite step_value_blank by assumption. now rewrite Hv.
  - now apply step_none_blank.
Qed.

(** In either mode, the terminator behind the token closes it. *)
Lemma held_eol (s : list ascii) (single_value : bool) (c : nat)
    (o : options) (t : token) :
  drop c s = spell t -> valid_token t = true ->
  self (flush s (c + length (spell t))
          (step s single_value (c + length (spell t)) (held t c o)))
  = effect o t.
Proof.
  intros Hs Ht. rewrite <- (app_nil_r (spell t)) in Hs.
  pose proof (held_view s c o t _ Hs Ht) as Hv. cbv zeta in Hv.
  apply drop_behind in Hs.
  assert (Hc : deref s (c + length (spell t)) = NUL).
  { rewrite <- (Nat.add_0_r (c + length (spell t))).
    now rewrite (deref_from s _ _ 0 Hs). }
  unfold step. rewrite Hc.
  remember (c + length (spell t)) as c' eqn:Ec. clear Ec Hs Hc.
  destruct t as [long k|long k v|long k q|w|q];
    cbn [held token_start effect ps key] in Hv |- *.
  - destruct Hv as [Hlt Hv]. apply Nat.ltb_lt in Hlt.
    unfold flush. simpl. now rewrite Hlt, Hv.
  - destruct Hv as (_ & Hv & Hne).
    unfold flush. simpl. now rewrite Hne, Hv.
  - unfold flush. simpl. now rewrite Nat.ltb_irrefl.
  - destruct Hv as [Hlt Hv]. apply Nat.ltb_lt in Hlt.
    unfold flush. simpl. now rewrite Hlt, Hv.
  - unfold flush. simpl. now rewrite Nat.ltb_irrefl.
Qed.

Lemma scan_token (s : list ascii) (c ts : nat) (o : options) (t : token)
    (rest : list ascii) :
  drop c s = spell t ++ SP :: rest -> valid_token t = true ->
  exists ts' : nat,
    scan (length (spell t) + 1) s false c (mk_frame parse_state.none ts [] o)
    = mk_frame parse_state.none ts' [] (effect o t).
Proof.
  intros Hs Ht.
  rewrite scan_add, (scan_spell s false c ts o t _ Hs Ht).
  rewrite scan_S, scan_0, (held_blank s c o t rest Hs Ht). eauto.
Qed.

(** One token alone in a buffer, in either mode. *)
Lemma parse_upto_token (bound : nat) (single_value : bool) (t : token)
    (o : options) :
  valid_token t = true -> length (spell t) < bound ->
  parse_upto bound (spell t) single_value o = effect o t.
Proof.
  intros Ht Hb.
  rewrite parse_upto_terminated by (try apply spell_not_eol; assumption).
  assert (Hs : drop 0 (spell t) = spell t ++ []) by now rewrite app_nil_r.
  unfold entry.
  rewrite (scan_spell (spell t) single_value 0 0 o t [] Hs Ht).
  rewrite app_nil_r in Hs.
  exact (held_eol (spell t) single_value 0 o t Hs Ht).
Qed.

(** *** A whole command line *)

Lemma command_line_blank (ts : list token) :
  ts <> [] -> command_line ts ++ [SP] = blank_terminated ts.
Proof.
  induction ts as [|t ts IH]; [contradiction|]. intros _.
  destruct ts as [|t' ts]; [reflexivity|].
  change (command_line (t :: t' :: ts))
    with (spell t ++ SP :: command_line (t' :: ts)).
  rewrite <- app_assoc, <- app_comm_cons, IH by discriminate.
  reflexivity.
Qed.

Lemma scan_tokens (s : list ascii) (ts : list token) :
  forallb valid_token ts = true ->
  forall (c t0 : nat) (o : options) (rest : list ascii),
    drop c s = blank_terminated ts ++ rest ->
    exists t' : nat,
      scan (length (blank_terminated ts)) s false c
        (mk_frame parse_state.none t0 [] o)
      = mk_frame parse_state.none t' [] (fold_left effect ts o).
Proof.
  induction ts as [|t ts IH]; intros Hts c t0 o rest Hs.
  - exists t0. reflexivity.
  - simpl in Hts. apply andb_true_iff in Hts. destruct Hts as [Ht Hts].
    simpl in Hs. rewrite <- app_assoc in Hs. simpl in Hs.
    destruct (scan_token s c t0 o t _ Hs Ht) as [t1 H1].
    simpl blank_terminated.
    replace (length (spell t ++ SP :: blank_terminated ts))
      with ((length (spell t) + 1) + length (blank_terminated ts))
      by (rewrite length_app; simpl; lia).
    rewrite scan_add, H1.
    apply (IH Hts _ t1 (effect o t) rest).
    rewrite (drop_add s _ c _ Hs).
    replace (length (spell t) + 1) with (length (spell t ++ [SP]))
      by (rewrite length_app; reflexivity).
    change (SP :: blank_terminated ts ++ rest)
      with ([SP] ++ blank_terminated ts ++ rest).
    rewrite app_assoc. apply drop_app_length.
Qed.

Lemma command_line_not_eol (ts : list token) :
  forallb valid_token ts = true ->
  Forall (fun ch => is_eol ch = false) (command_line ts).
Proof.
  induction ts as [|t ts IH]; intros H; [constructor|].
  simpl in H. apply andb_true_iff in H. destruct H as [Ht Hts].
  destruct ts as [|t' ts]; [now apply spell_not_eol|].
  change (command_line (t :: t' :: ts))
    with (spell t ++ SP :: command_line (t' :: ts)).
  apply Forall_app. split; [now apply spell_not_eol|].
  constructor; [reflexivity | now apply IH].
Qed.

(** The tokenizer on a well-formed command line, in multi-token mode: the
    tokens act on the object one after the other. *)
Lemma parse_upto_command_line (bound : nat) (ts : list token) (o : options) :
  forallb valid_token ts = true -> length (command_line ts) < bound ->
  parse_upto bound (command_line ts) false o = fold_left effect ts o.
Proof.
  intros Hts Hb.
  destruct ts as [|t ts].
  - rewrite parse_upto_terminated by (try constructor; assumption).
    reflexivity.
  - assert (Hne : t :: ts <> []) by discriminate.
    destruct (scan_tokens (blank_terminated (t :: ts)) (t :: ts) Hts 0 0 o [])
      as [t' Ht']; [now rewrite app_nil_r|].
    assert (Hscan : scan (length (command_line (t :: ts)) + 1)
                      (command_line (t :: ts) ++ [SP]) false 0 (entry o)
                    = mk_frame parse_state.none t' []
                        (fold_left effect (t :: ts) o)).
    { rewrite command_line_blank by assumption.
      replace (length (command_line (t :: ts)) + 1)
        with (length (blank_terminated (t :: ts)))
        by (rewrite <- command_line_blank by assumption;
            rewrite length_app; reflexivity).
      exact Ht'. }
    rewrite parse_as_scan.
    + now rewrite Hscan.
    + now apply command_line_not_eol.
    + assumption.
    + rewrite Hscan. discriminate.
Qed.

Lemma parse_command_line (ts : list token) (o : options) :
  forallb valid_token ts = true -> length (command_line ts) < max_length ->
  parse (command_line ts) false o = fold_left effect ts o.
Proof. apply parse_upto_command_line. Qed.

(** *** The two constructors on tokens *)

Lemma parse_token (single_value : bool) (t : token) (o : options) :
  valid_token t = true -> length (spell t) < max_length ->
  parse (spell t) single_value o = effect o t.
Proof. apply parse_upto_token. Qed.

Lemma fold_left_indices (F : list ascii -> options -> options)
    (l : list (list ascii)) :
  forall (pre : list (list ascii)) (o : options),
    fold_left (fun o i => F (nth i (pre ++ l) []) o)
      (seq (length pre) (length l)) o
    = fold_left (fun o x => F x o) l o.
Proof.
  induction l as [|x l IH]; intros pre o; [reflexivity|].
  simpl. rewrite app_nth2, Nat.sub_diag by lia. simpl.
  specialize (IH (pre ++ [x]) (F x o)).
  rewrite length_app, <- app_assoc in IH. simpl in IH.
  rewrite Nat.add_1_r in IH. exact IH.
Qed.

Lemma options_argv_fold (prog : list ascii) (l : list (list ascii)) :
  options_argv (S (length l)) (prog :: l)
  = fold_left (fun o x => parse x true o) l empty_options.
Proof.
  unfold options_argv. simpl Nat.sub. rewrite Nat.sub_0_r.
  exact (fold_left_indices (fun x o => parse x true o) l [prog]
           empty_options).
Qed.

Lemma fold_left_map_agree {A B C : Type} (F : C -> B -> C) (G : C -> A -> C)
    (h : A -> B) (P : A -> bool) :
  (forall x o, P x = true -> F o (h x) = G o x) ->
  forall l : list A,
    forallb P l = true ->
    forall o : C, fold_left F (map h l) o = fold_left G l o.
Proof.
  intros HFG l. induction l as [|x l IH]; intros Hl o; [reflexivity|].
  simpl in Hl |- *. apply andb_true_iff in Hl. destruct Hl as [Hx Hl].
  rewrite HFG by assumption. now apply IH.
Qed.

(** An argument vector of one well-formed token per element. *)
Lemma options_argv_tokens (prog : list ascii) (ts : list token) :
  forallb valid_token ts = true -> fits ts = true ->
  options_argv (S (length ts)) (prog :: map spell ts)
  = fold_left effect ts empty_options.
Proof.
  intros Hv Hf.
  rewrite <- (length_map spell ts), options_argv_fold.
  apply (fold_left_map_agree (fun o x => parse x true o) effect spell
           (fun t => valid_token t && (length (spell t) <? max_length))).
  - intros t o Ht. apply andb_true_iff in Ht. destruct Ht as [Ht Hb].
    apply Nat.ltb_lt in Hb. now apply parse_token.
  - unfold fits in Hf. clear prog.
    induction ts as [|t ts IH]; [reflexivity|].
    cbn [forallb] in Hv, Hf |- *.
    apply andb_true_iff in Hv. destruct Hv as [Ht Hv].
    apply andb_true_iff in Hf. destruct Hf as [Hb Hf].
    rewrite Ht, Hb. now apply IH.
Qed.

(** *** What the map holds for a key *)

Lemma lookup_subscript (m : gmap (list ascii) (list ascii))
    (k k' : list ascii) :
  subscript m k' !! k
  = if bool_decide (k' = k) then Some (default [] (m !! k)) else m !! k.
Proof.
  unfold subscript. case_bool_decide as Hk.
  - subst k'. destruct (m !! k) as [v|] eqn:E; simpl.
    + exact E.
    + apply lookup_insert_eq.
  - destruct (m !! k'); [reflexivity|]. now apply lookup_insert_ne.
Qed.

Lemma lookup_effects (k : list ascii) (ts : list token) :
  forall o : options,
    opts (fold_left effect ts o) !! k
    = match last_value k ts with
      | Some v => Some v
      | None =>
          if existsb (names k) ts then Some (default [] (opts o !! k))
          else opts o !! k
      end.
Proof.
  induction ts as [|t ts IH]; intros o; [reflexivity|].
  simpl fold_left. rewrite IH. simpl last_value. simpl existsb.
  destruct (last_value k ts) as [v|]; [reflexivity|].
  destruct t as [long k'|long k' v|long k' v|w|q]; simpl.
  - rewrite lookup_subscript. case_bool_decide; simpl.
    + now destruct (existsb (names k) ts).
    + reflexivity.
  - case_bool_decide as Hk.
    + subst k'. rewrite lookup_insert_eq.
      now destruct (existsb (names k) ts).
    + now rewrite lookup_insert_ne.
  - case_bool_decide as Hk.
    + subst k'. rewrite lookup_insert_eq.
      now destruct (existsb (names k) ts).
    + now rewrite lookup_insert_ne.
  - reflexivity.
  - reflexivity.
Qed.

Lemma get_string_effects (k : list ascii) (ts : list token) :
  get_string (fold_left effect ts empty_options) k = stored_value k ts.
Proof.
  unfold get_string, find_opt, stored_value. rewrite lookup_effects.
  simpl. rewrite lookup_empty. simpl.
  destruct (last_value k ts); [reflexivity|].
  now destruct (existsb (names k) ts).
Qed.


(** ** Positional arguments *)

Lemma args_effects (ts : list token) :
  forall o : options, a (fold_left effect ts o) = a o ++ positional ts.
Proof.
  induction ts as [|t ts IH]; intros o.
  - simpl. now rewrite app_nil_r.
  - simpl fold_left. rewrite IH.
    destruct t; simpl; try reflexivity; now rewrite <- app_assoc.
Qed.

Lemma positional_app (ts1 ts2 : list token) :
  positional (ts1 ++ ts2) = positional ts1 ++ positional ts2.
Proof. apply omap_app. Qed.

Lemma last_value_snoc (k : list ascii) (ts : list token) (t : token) :
  last_value k (ts ++ [t])
  = match assigns k t with
    | Some v => Some v
    | None => last_value k ts
    end.
Proof.
  induction ts as [|t' ts IH]; simpl.
  - now destruct (assigns k t).
  - rewrite IH. destruct (assigns k t); [reflexivity|].
    reflexivity.
Qed.

(** *** No empty value without quotes *)

Lemma all_nonempty_snoc (l : list (list ascii)) (v : list ascii) :
  all_nonempty l -> v <> [] -> all_nonempty (l ++ [v]).
Proof.
  intros Hl Hv. apply Forall_app. split; [assumption | now constructor].
Qed.

Lemma quote_free_step (s : list ascii) (single_value : bool) (c : nat)
    (f : frame) :
  quote_free_inv s c f ->
  is_eol (deref s c) = false -> is_quote (deref s c) = false ->
  quote_free_inv s (S c) (step s single_value c f).
Proof.
  intros (Hwf & Hps & Ha) He Hq.
  split; [now apply wf_step|].
  destruct Hwf as [Hc Hf]. apply deref_not_eol_lt in He.
  destruct f as [p ts k o]. simpl in Hf, Hps, Ha.
  unfold step. rewrite Hq. simpl ps. simpl token_start. simpl key.
  destruct p; try contradiction; cbn [andb];
    split_tests; simpl; split; try discriminate; try assumption.
  destruct Hf as [_ Hk]. apply all_nonempty_snoc; [assumption|].
  apply view_nonempty; [|lia].
  apply Hk. now destruct k.
Qed.

Lemma quote_free_flush (s : list ascii) (single_value : bool) (c : nat)
    (f : frame) :
  quote_free_inv s c f -> is_eol (deref s c) = true ->
  all_nonempty (a (self (flush s c (step s single_value c f)))).
Proof.
  intros (Hwf & Hps & Ha) He.
  destruct Hwf as [Hc Hf]. apply Ascii.eqb_eq in He.
  destruct f as [p ts k o]. simpl in Hf, Hps, Ha.
  unfold step. rewrite He. simpl ps. simpl token_start. simpl key.
  destruct p; try contradiction; cbn -[view Nat.ltb nonempty].
  - unfold flush. simpl. rewrite Nat.ltb_irrefl.
    now destruct (nonempty k).
  - unfold flush. simpl. now rewrite Nat.ltb_irrefl.
  - unfold flush. simpl. now rewrite Nat.ltb_irrefl.
  - unfold flush. simpl. now destruct (ts <? c).
  - unfold flush. simpl. destruct (nonempty k) eqn:Hk; [assumption|].
    destruct (ts <? c) eqn:Hlt; [|assumption]. simpl.
    apply all_nonempty_snoc; [assumption|].
    apply Nat.ltb_lt in Hlt. now apply view_nonempty.
Qed.

Lemma quote_free_loop (s : list ascii) (single_value : bool) :
  Forall (fun ch => is_quote ch = false) s ->
  forall (fuel c : nat) (f : frame),
    quote_free_inv s c f ->
    all_nonempty (a (self (parse_loop fuel s single_value c f))).
Proof.
  intros Hs. induction fuel as [|fuel IH]; intros c f Hf.
  - apply Hf.
  - simpl. destruct (is_eol (deref s c)) eqn:He.
    + now apply quote_free_flush.
    + apply IH. apply quote_free_step; [assumption | assumption|].
      apply deref_not_eol_lt in He.
      exact (proj1 (List.Forall_nth _ s) Hs c NUL He).
Qed.

(** One iteration of the loop on a frame that reads an unquoted value, after
    [n] characters of any input: nothing is appended to the positional
    arguments, or one value that is not empty. *)
Lemma unquoted_never_empty (s : list ascii) (o : options) (n : nat) :
  unterminated n s = true ->
  let f := scan n s false 0 (entry o) in
  ps f = parse_state.value ->
  let f' := step s false n f in
  let g := if is_eol (deref s n) then flush s n f' else f' in
  a (self g) = a (self f) \/
  exists v : list ascii, v <> [] /\ a (self g) = a (self f) ++ [v].
Proof.
  intros Hs f Hps f' g.
  assert (Hwf : wf s n f).
  { apply (wf_scan s false n 0 (entry o)); [apply wf_entry|].
    now apply unterminated_deref. }
  subst g f'. destruct Hwf as [Hn Hf].
  destruct f as [p ts k o']. simpl in Hps, Hf. subst p.
  destruct Hf as [Hle Hk]. simpl self at 2 4. simpl a at 2 4.
  destruct (is_eol (deref s n)) eqn:He.
  - apply Ascii.eqb_eq in He. unfold step. rewrite He.
    cbn -[view Nat.ltb nonempty]. unfold flush. simpl.
    destruct k as [|x k]; simpl; [|now left].
    destruct (ts <? n) eqn:Hlt; simpl; [right | now left].
    exists (view s ts n). split; [|reflexivity].
    apply Nat.ltb_lt in Hlt. now apply view_nonempty.
  - apply deref_not_eol_lt in He. unfold step. simpl ps. simpl token_start.
    simpl key. split_tests; simpl; try (now left).
    right. exists (view s ts n). split; [|reflexivity].
    apply view_nonempty; [|lia]. apply Hk. now destruct k.
Qed.

(** C6: in multi-token mode no empty free-standing value is ever stored
    by the unquoted path: on every input, an iteration that reads an
    unquoted value appends nothing or a value that is not empty, so that an
    input without quotes never yields an empty positional argument; a
    zero-length unquoted span is dropped. An empty quoted value is kept:
    free-standing it becomes an empty positional argument, in its place
    among the others; keyed it becomes the empty value of its key. *)
Theorem empty_values_spec :
  (forall (s : list ascii) (o : options) (n : nat),
     unterminated n s = true ->
     let f := scan n s false 0 (entry o) in
     ps f = parse_state.value ->
     let f' := step s false n f in
     let g := if is_eol (deref s n) then flush s n f' else f' in
     a (self g) = a (self f) \/
     exists v : list ascii, v <> [] /\ a (self g) = a (self f) ++ [v]) /\
  (forall (s : list ascii) (o : options),
     Forall (fun ch => is_quote ch = false) s ->
     all_nonempty (args o) -> all_nonempty (args (parse s false o))) /\
  (forall ts1 ts2 : list token,
     forallb valid_token (ts1 ++ quoted [] :: ts2) = true ->
     length (command_line (ts1 ++ quoted [] :: ts2)) < max_length ->
     args (options_cmd_line (command_line (ts1 ++ quoted [] :: ts2)))
     = positional ts1 ++ [] :: positional ts2) /\
  (forall (ts : list token) (long : bool) (k : list ascii),
     forallb valid_token (ts ++ [keyed_quoted long k []]) = true ->
     length (command_line (ts ++ [keyed_quoted long k []])) < max_length ->
     get_string
       (options_cmd_line (command_line (ts ++ [keyed_quoted long k []]))) k
     = Some []) /\
  args (options_cmd_line []) = [] /\
  args (options_cmd_line (cstr " a  b ")) = [cstr "a"; cstr "b"] /\
  args (options_cmd_line (cstr "a " ++ [QUOTE; QUOTE] ++ cstr " b"))
  = [cstr "a"; []; cstr "b"] /\
  get_string (options_cmd_line (cstr "--k=" ++ [QUOTE; QUOTE])) (cstr "k")
  = Some [].
Proof.
  split; [exact unquoted_never_empty|].
  split; [|split; [|split; [|vm_compute; repeat split]]].
  - intros s o Hs Ho. unfold args, parse, parse_upto.
    apply quote_free_loop; [assumption|].
    split; [apply wf_entry|]. split; [discriminate | exact Ho].
  - intros ts1 ts2 Hv Hb. unfold args, options_cmd_line.
    rewrite parse_command_line by assumption.
    now rewrite args_effects, positional_app.
  - intros ts long k Hv Hb. unfold options_cmd_line.
    rewrite parse_command_line by assumption.
    rewrite get_string_effects. unfold stored_value.
    rewrite last_value_snoc. simpl. now rewrite bool_decide_eq_true_2.
Qed.

Lemma empty_values_spec_witness :
  (a (self (step (cstr "ab c") false 2
              (scan 2 (cstr "ab c") false 0 (entry empty_options))))
   = a (self (scan 2 (cstr "ab c") false 0 (entry empty_options))) \/
   exists v : list ascii,
     v <> [] /\
     a (self (step (cstr "ab c") false 2
                (scan 2 (cstr "ab c") false 0 (entry empty_options))))
     = a (self (scan 2 (cstr "ab c") false 0 (entry empty_options))) ++ [v]) /\
  all_nonempty (args (parse (cstr "a   -k=  b ") false empty_options)) /\
  args (options_cmd_line
          (command_line [word (cstr "a"); quoted []; word (cstr "b")]))
  = [cstr "a"; []; cstr "b"] /\
  get_string
    (options_cmd_line
       (command_line [word (cstr "a"); keyed_quoted true (cstr "k") []]))
    (cstr "k")
  = Some [].
Proof.
  destruct empty_values_spec as (Hstep & Hdrop & Hpos & Hkey & _).
  split; [|split; [|split]].
  - exact (Hstep (cstr "ab c") empty_options 2 eq_refl eq_refl).
  - apply Hdrop; [repeat constructor | constructor].
  - apply (Hpos [word (cstr "a")] [word (cstr "b")]); [reflexivity|].
    apply Nat.ltb_lt. vm_compute. reflexivity.
  - apply (Hkey [word (cstr "a")] true (cstr "k")); [reflexivity|].
    apply Nat.ltb_lt. vm_compute. reflexivity.
Defined.

(** ** Single-value mode *)

Lemma parse_upto_single_word (bound : nat) (w : list ascii) (o : options) :
  single_word w = true -> length w < bound ->
  parse_upto bound w true o = {| a := a o ++ [w]; opts := opts o |}.
Proof.
  intros Hw Hb. destruct w as [|x w]; [discriminate Hw|].
  simpl in Hw. apply andb_true_iff in Hw. destruct Hw as [Hx Hw].
  apply negb_true_iff, orb_false_iff in Hx. destruct Hx as [Hx Hq].
  apply orb_false_iff in Hx. destruct Hx as [Hws Hd].
  rewrite parse_upto_terminated; [|apply (forallb_not_eol
    (fun ch => negb (is_eol ch))); [intros ch H; now apply negb_true_iff in H
                                   | exact Hw] | assumption].
  unfold entry. simpl length.
  rewrite scan_S, step_none_other by assumption.
  rewrite scan_value_body_single by lia.
  rewrite step_value_idle_single by lia.
  unfold flush. simpl ps. simpl key. simpl token_start. simpl nonempty.
  cbv iota. simpl Nat.ltb.
  change (view (x :: w) 0 (S (length w)))
    with (view (x :: w) 0 (length (x :: w))).
  now rewrite view_whole.
Qed.

(** C7: the argv scenario yields two positional arguments, 42 for t, and
    the flag u; and in single-value mode an argv element that starts a
    free-standing value is stored whole as one positional argument,
    whitespace inside it included. *)
Theorem argv_scenario_spec :
  (let o :=
     options_argv 5
       [cstr "prog"; cstr "--t=42"; cstr "--u";
        [QUOTE] ++ cstr "param param" ++ [QUOTE]; cstr "param param"] in
   arg_count o = 2 /\
   args o = [cstr "param param"; cstr "param param"] /\
   get_int o (cstr "t") = Some 42%Z /\ has_opt o (cstr "u") = true) /\
  (forall (w : list ascii) (o : options),
     single_word w = true -> length w < max_length ->
     parse w true o = {| a := a o ++ [w]; opts := opts o |}).
Proof.
  split; [vm_compute; repeat split|].
  intros w o. apply parse_upto_single_word.
Qed.

Lemma argv_scenario_spec_witness :
  parse (cstr "param  param x") true empty_options
  = {| a := [cstr "param  param x"]; opts := ∅ |}.
Proof.
  destruct argv_scenario_spec as [_ H].
  apply (H (cstr "param  param x") empty_options); [reflexivity|].
  apply Nat.ltb_lt. vm_compute. reflexivity.
Defined.

(** ** Bare flags *)

Lemma get_bool_empty (o : options) (k : list ascii) (d : bool) :
  get_string o k = Some [] -> get_bool o k d = returns true.
Proof. intros H. unfold get_bool. now rewrite H. Qed.

Lemma has_opt_get_string (o : options) (k v : list ascii) :
  get_string o k = Some v -> has_opt o k = true.
Proof.
  unfold has_opt, get_string. now destruct (find_opt o k).
Qed.

Lemma flag_alone (o : options) (k : list ascii) :
  o = effect empty_options (flag true k) ->
  has_opt o k = true /\ get_string o k = Some [] /\
  forall d : bool, get_bool o k d = returns true.
Proof.
  intros ->.
  assert (H : get_string (effect empty_options (flag true k)) k = Some []).
  { unfold get_string, find_opt. simpl.
    rewrite lookup_subscript, bool_decide_eq_true_2 by reflexivity.
    now rewrite lookup_empty. }
  split; [now apply (has_opt_get_string _ k [])|].
  split; [exact H|]. intros d. now apply get_bool_empty.
Qed.

Lemma existsb_names (k : list ascii) (long : bool) (ts : list token) :
  In (flag long k) ts -> existsb (names k) ts = true.
Proof.
  intros H. apply existsb_exists. exists (flag long k).
  split; [assumption|]. simpl. now apply bool_decide_eq_true_2.
Qed.

(** * Further properties of the tokenizer *)

(** ** Inputs of whitespace only *)

Lemma parse_loop_blank (w : list ascii) (single_value : bool) (o : options) :
  forallb is_whitespace w = true ->
  forall (fuel c ts : nat),
    self (parse_loop fuel w single_value c
            (mk_frame parse_state.none ts [] o)) = o.
Proof.
  intros Hw. induction fuel as [|fuel IH]; intros c ts; [reflexivity|].
  simpl. destruct (is_eol (deref w c)) eqn:He.
  - apply Ascii.eqb_eq in He. unfold step. rewrite He. simpl.
    unfold flush. simpl. now rewrite Nat.ltb_irrefl.
  - assert (Hc : is_whitespace (deref w c) = true).
    { apply deref_not_eol_lt in He. rewrite forallb_forall in Hw.
      apply Hw. unfold deref. now apply nth_In. }
    unfold step. simpl ps. rewrite Hc. apply IH.
Qed.

(** X1: an input that holds whitespace only, the empty input included and
    whatever its length, leaves the object as it was, in both modes. *)
Theorem parse_whitespace_only (w : list ascii) (single_value : bool)
    (o : options) :
  forallb is_whitespace w = true -> parse w single_value o = o.
Proof.
  intros Hw. unfold parse, parse_upto, entry.
  now apply parse_loop_blank.
Qed.

Lemma parse_whitespace_only_witness :
  parse [SP; TAB; CR; LF; SP] false
    (options_cmd_line (cstr "--k=v x"))
  = options_cmd_line (cstr "--k=v x") /\
  parse [] true empty_options = empty_options.
Proof.
  split.
  - apply (parse_whitespace_only [SP; TAB; CR; LF; SP]). reflexivity.
  - apply (parse_whitespace_only []). reflexivity.
Defined.

(** ** The two modes *)

Lemma step_mode (s : list ascii) (c : nat) (f : frame) :
  is_whitespace (deref s c) = false ->
  step s true c f = step s false c f.
Proof.
  intros H. unfold step. rewrite H. reflexivity.
Qed.

Lemma blank_free_deref (s : list ascii) (c : nat) :
  blank_free s = true -> is_whitespace (deref s c) = false.
Proof.
  intros H. destruct (Nat.lt_ge_cases c (length s)) as [Hc|Hc].
  - unfold blank_free in H. rewrite forallb_forall in H.
    apply negb_true_iff. apply H. unfold deref. now apply nth_In.
  - unfold deref. now rewrite nth_overflow.
Qed.

Lemma parse_loop_mode (s : list ascii) :
  blank_free s = true ->
  forall (fuel c : nat) (f : frame),
    parse_loop fuel s true c f = parse_loop fuel s false c f.
Proof.
  intros Hs. induction fuel as [|fuel IH]; intros c f; [reflexivity|].
  simpl. rewrite step_mode by now apply blank_free_deref.
  now rewrite IH.
Qed.

(** X2: on a buffer without whitespace the mode makes no difference:
    parsing it as one argv element gives what parsing it as a command
    line gives. *)
Theorem parse_mode_irrelevant (s : list ascii) (o : options) :
  blank_free s = true -> parse s true o = parse s false o.
Proof.
  intros Hs. unfold parse, parse_upto. now rewrite parse_loop_mode.
Qed.

Lemma parse_mode_irrelevant_witness :
  parse (cstr "--key=value") true empty_options
  = parse (cstr "--key=value") false empty_options.
Proof.
  apply (parse_mode_irrelevant (cstr "--key=value")). reflexivity.
Defined.

(** ** Nothing behind the terminator is read *)

Lemma flush_ext (s s' : list ascii) (c : nat) (f : frame) :
  (forall i, view s i c = view s' i c) -> flush s c f = flush s' c f.
Proof. intros Hv. unfold flush. now rewrite !Hv. Qed.

Lemma parse_loop_terminated_ext (s junk : list ascii)
    (single_value : bool) :
  forall (fuel c : nat) (f : frame),
    c <= length s ->
    parse_loop fuel (s ++ NUL :: junk) single_value c f
    = parse_loop fuel s single_value c f.
Proof.
  induction fuel as [|fuel IH]; intros c f Hc; [reflexivity|].
  assert (Hd : deref (s ++ NUL :: junk) c = deref s c).
  { destruct (Nat.eq_dec c (length s)) as [->|Hne].
    - rewrite deref_end. now apply deref_middle.
    - apply deref_app_l. lia. }
  assert (Hv : forall i, view (s ++ NUL :: junk) i c = view s i c)
    by (intros i; now apply view_app_le).
  simpl. rewrite Hd, (step_ext _ s) by assumption.
  destruct (is_eol (deref s c)) eqn:He.
  - now apply flush_ext.
  - apply IH. apply deref_not_eol_lt in He. lia.
Qed.

(** X3: the parse ends at the first terminator: whatever the memory holds
    behind it has no effect on the result. *)
Theorem parse_stops_at_terminator (s junk : list ascii)
    (single_value : bool) (o : options) :
  parse (s ++ NUL :: junk) single_value o = parse s single_value o.
Proof.
  unfold parse, parse_upto. rewrite parse_loop_terminated_ext; [reflexivity|].
  lia.
Qed.

(** ** Nothing is ever taken away *)

Lemma extends_refl (o : options) : extends o o.
Proof. split; [exists []; now rewrite app_nil_r | auto]. Qed.

Lemma extends_trans (o1 o2 o3 : options) :
  extends o1 o2 -> extends o2 o3 -> extends o1 o3.
Proof.
  intros [[m1 H1] K1] [[m2 H2] K2]. split; [|auto].
  exists (m1 ++ m2). now rewrite H2, H1, app_assoc.
Qed.

Lemma extends_touch (o : options) (k : list ascii) :
  extends o {| a := a o; opts := subscript (opts o) k |}.
Proof.
  split; [exists []; simpl; now rewrite app_nil_r|].
  intros k' H. simpl. rewrite lookup_subscript.
  case_bool_decide; [eauto | assumption].
Qed.

Lemma extends_store (o : options) (k v : list ascii) :
  extends o {| a := a o; opts := <[k := v]> (opts o) |}.
Proof.
  split; [exists []; simpl; now rewrite app_nil_r|].
  intros k' H. simpl. destruct (decide (k = k')) as [->|Hne].
  - rewrite lookup_insert_eq. eauto.
  - now rewrite lookup_insert_ne.
Qed.

Lemma extends_emplace (o : options) (v : list ascii) :
  extends o {| a := a o ++ [v]; opts := opts o |}.
Proof. split; [now exists [v] | auto]. Qed.

Lemma step_extends (s : list ascii) (single_value : bool) (c : nat)
    (f : frame) :
  extends (self f) (self (step s single_value c f)).
Proof.
  destruct f as [p ts k o]. unfold step. simpl ps.
  destruct p; split_tests; simpl;
    first [apply extends_refl | apply extends_touch | apply extends_store
          | apply extends_emplace].
Qed.

Lemma flush_extends (s : list ascii) (c : nat) (f : frame) :
  extends (self f) (self (flush s c f)).
Proof.
  destruct f as [p ts k o]. unfold flush. simpl ps.
  destruct p; split_tests; simpl;
    first [apply extends_refl | apply extends_touch | apply extends_store
          | apply extends_emplace].
Qed.

Lemma parse_loop_extends (s : list ascii) (single_value : bool) :
  forall (fuel c : nat) (f : frame),
    extends (self f) (self (parse_loop fuel s single_value c f)).
Proof.
  induction fuel as [|fuel IH]; intros c f; [apply extends_refl|].
  simpl. destruct (is_eol (deref s c)).
  - eapply extends_trans; [apply step_extends | apply flush_extends].
  - eapply extends_trans; [apply step_extends | apply IH].
Qed.

Lemma options_argv_S (argc : nat) (argv : list (list ascii)) :
  1 <= argc ->
  options_argv (S argc) argv
  = parse (nth argc argv []) true (options_argv argc argv).
Proof.
  intros H. unfold options_argv.
  replace (S argc - 1) with (S (argc - 1)) by lia.
  rewrite seq_S, fold_left_app. cbn [fold_left].
  now replace (1 + (argc - 1)) with argc by lia.
Qed.

(** X4: a parse only adds. Whatever the input and the mode, the positional
    arguments held before the call stay in front, in order, and every key
    present before the call is present after it (its value may be
    replaced). The argv constructor therefore accumulates: with one more
    element counted in, the object extends the one built without it. *)
Theorem parse_only_adds :
  (forall (s : list ascii) (single_value : bool) (o : options),
     extends o (parse s single_value o)) /\
  (forall (argc : nat) (argv : list (list ascii)),
     extends (options_argv argc argv) (options_argv (S argc) argv)).
Proof.
  split.
  - intros s single_value o. unfold parse, parse_upto.
    exact (parse_loop_extends s single_value max_length 0 (entry o)).
  - intros argc argv.
    destruct argc as [|argc]; [|rewrite (options_argv_S (S argc)) by lia].
    + unfold options_argv. simpl. apply extends_refl.
    + unfold parse, parse_upto.
      exact (parse_loop_extends _ true max_length 0 (entry _)).
Qed.

(** ** No empty key *)

Lemma subscript_keeps_absent (m : gmap (list ascii) (list ascii))
    (k k' : list ascii) :
  k <> k' -> m !! k' = None -> subscript m k !! k' = None.
Proof.
  intros Hne H. rewrite lookup_subscript.
  now rewrite bool_decide_eq_false_2.
Qed.

Lemma insert_keeps_absent (m : gmap (list ascii) (list ascii))
    (k v k' : list ascii) :
  k <> k' -> m !! k' = None -> <[k := v]> m !! k' = None.
Proof. intros Hne H. now rewrite lookup_insert_ne. Qed.

Lemma nonempty_neq_nil (k : list ascii) : nonempty k = true -> k <> [].
Proof. now destruct k. Qed.

Lemma view_neq_nil (s : list ascii) (i j : nat) :
  (i <? j) = true -> j <= length s -> view s i j <> [].
Proof. intros H Hj. apply Nat.ltb_lt in H. now apply view_nonempty. Qed.

Lemma step_no_empty_key (s : list ascii) (single_value : bool) (c : nat)
    (f : frame) :
  c <= length s -> opts (self f) !! [] = None ->
  opts (self (step s single_value c f)) !! [] = None.
Proof.
  intros Hc Ho. destruct f as [p ts k o]. simpl in Ho.
  unfold step. simpl ps. simpl key. simpl token_start.
  destruct p; split_tests; simpl; try assumption;
    first [apply subscript_keeps_absent | apply insert_keeps_absent];
    try assumption;
    first [now apply nonempty_neq_nil | now apply view_neq_nil].
Qed.

Lemma flush_no_empty_key (s : list ascii) (c : nat) (f : frame) :
  c <= length s -> opts (self f) !! [] = None ->
  opts (self (flush s c f)) !! [] = None.
Proof.
  intros Hc Ho. destruct f as [p ts k o]. simpl in Ho.
  unfold flush. simpl ps. simpl key. simpl token_start.
  destruct p; split_tests; simpl; try assumption;
    first [apply subscript_keeps_absent | apply insert_keeps_absent];
    try assumption;
    first [now apply nonempty_neq_nil | now apply view_neq_nil].
Qed.

Lemma parse_loop_no_empty_key (s : list ascii) (single_value : bool) :
  forall (fuel c : nat) (f : frame),
    c <= length s -> opts (self f) !! [] = None ->
    opts (self (parse_loop fuel s single_value c f)) !! [] = None.
Proof.
  induction fuel as [|fuel IH]; intros c f Hc Ho; [assumption|].
  simpl. destruct (is_eol (deref s c)) eqn:He.
  - apply flush_no_empty_key; [assumption|].
    now apply step_no_empty_key.
  - apply IH; [apply deref_not_eol_lt in He; lia|].
    now apply step_no_empty_key.
Qed.

Lemma parse_no_empty_key (s : list ascii) (single_value : bool)
    (o : options) :
  opts o !! [] = None -> opts (parse s single_value o) !! [] = None.
Proof.
  intros Ho. unfold parse, parse_upto.
  apply parse_loop_no_empty_key; [lia | exact Ho].
Qed.

Lemma fold_left_preserves {A B : Type} (P : A -> Prop) (F : A -> B -> A)
    (l : list B) :
  (forall x y, P x -> P (F x y)) -> forall x, P x -> P (fold_left F l x).
Proof.
  intros HF. induction l as [|y l IH]; intros x Hx; [assumption|].
  simpl. apply IH. now apply HF.
Qed.

(** X5: the map never holds the empty key. Whatever the input, neither
    constructor records a key of no characters: a key is recorded only
    from a span that is not empty. *)
Theorem no_empty_key :
  (forall cmd_line : list ascii, has_opt (options_cmd_line cmd_line) [] = false)
  /\
  (forall (argc : nat) (argv : list (list ascii)),
     has_opt (options_argv argc argv) [] = false).
Proof.
  assert (H : forall o, opts o !! [] = None -> has_opt o [] = false).
  { intros o Ho. unfold has_opt, find_opt. now rewrite Ho. }
  split.
  - intros cmd_line. apply H. unfold options_cmd_line.
    now apply parse_no_empty_key.
  - intros argc argv. apply H. unfold options_argv.
    apply (fold_left_preserves (fun o => opts o !! [] = None)).
    + intros o i Ho. now apply parse_no_empty_key.
    + reflexivity.
Qed.

(** ** Token spans stay inside the buffer *)

(** X6: wherever the loop stands after [n] characters, none of them the
    terminator, the cursor has not left the buffer, the start of the token
    in flight is not behind the cursor, so that every span the loop forms
    lies inside the input, the span behind an opening quote included; and
    a key is pending only while its value is read. *)
Theorem token_spans_in_bounds (s : list ascii) (single_value : bool)
    (o : options) (n : nat) :
  unterminated n s = true ->
  let f := scan n s single_value 0 (entry o) in
  n <= length s /\
  (ps f = parse_state.key -> token_start f < n /\ key f = []) /\
  (ps f = parse_state.value -> token_start f <= n) /\
  (ps f = parse_state.quoted_value -> token_start f + 1 <= n) /\
  (ps f = parse_state.none -> key f = []) /\
  (key f <> [] -> ps f = parse_state.value \/
                  ps f = parse_state.quoted_value).
Proof.
  intros Hs f.
  assert (Hwf : wf s n f).
  { apply (wf_scan s single_value n 0 (entry o)); [apply wf_entry|].
    now apply unterminated_deref. }
  destruct Hwf as [Hn Hf]. split; [assumption|].
  destruct (ps f); repeat split; try discriminate; intros; try tauto;
    try lia; try contradiction; auto.
Qed.

Lemma token_spans_in_bounds_witness :
  token_start (scan 7 (cstr "ab --k=v") false 0 (entry empty_options)) <= 7.
Proof.
  apply (token_spans_in_bounds (cstr "ab --k=v") false empty_options 7);
    reflexivity.
Defined.

(** ** Command lines with any whitespace between the tokens *)

Lemma is_whitespace_cases (x : ascii) :
  is_whitespace x = true -> x = SP \/ x = TAB \/ x = CR \/ x = LF.
Proof.
  unfold is_whitespace. intros H.
  repeat (apply orb_true_iff in H; destruct H as [H|H]);
    apply Ascii.eqb_eq in H; tauto.
Qed.

Lemma whitespace_not_special (x : ascii) :
  is_whitespace x = true ->
  is_eol x = false /\ is_quote x = false /\ is_dash x = false.
Proof.
  intros H. destruct (is_whitespace_cases x H) as [->|[->|[->| ->]]];
    repeat split.
Qed.

Section Whitespace.
Variable s : list ascii.

Lemma step_none_ws (single_value : bool) (c ts : nat) (k : list ascii)
    (o : options) :
  is_whitespace (deref s c) = true ->
  step s single_value c (mk_frame parse_state.none ts k o)
  = mk_frame parse_state.none ts k o.
Proof. intros H. unfold step. simpl ps. now rewrite H. Qed.

Lemma step_key_ws (single_value : bool) (c ts : nat) (k : list ascii)
    (o : options) :
  is_whitespace (deref s c) = true -> ts < c ->
  step s single_value c (mk_frame parse_state.key ts k o)
  = mk_frame parse_state.none ts k
      {| a := a o; opts := subscript (opts o) (view s ts c) |}.
Proof.
  intros H Hlt. unfold step. simpl ps. rewrite H. simpl.
  apply Nat.ltb_lt in Hlt. now rewrite Hlt.
Qed.

Lemma step_value_ws (c ts : nat) (k : list ascii) (o : options) :
  is_whitespace (deref s c) = true ->
  step s false c (mk_frame parse_state.value ts k o)
  = mk_frame parse_state.none ts []
      (if nonempty k
       then {| a := a o; opts := <[k := view s ts c]> (opts o) |}
       else {| a := a o ++ [view s ts c]; opts := opts o |}).
Proof.
  intros H. destruct (whitespace_not_special _ H) as (_ & Hq & _).
  unfold step. simpl ps. rewrite H, Hq. simpl. now destruct (nonempty k).
Qed.

(** In multi-token mode, any whitespace behind the token closes it. *)
Lemma held_ws (c : nat) (o : options) (t : token) (x : ascii)
    (rest : list ascii) :
  drop c s = spell t ++ x :: rest -> is_whitespace x = true ->
  valid_token t = true ->
  step s false (c + length (spell t)) (held t c o)
  = mk_frame parse_state.none (token_start (held t c o)) [] (effect o t).
Proof.
  intros Hs Hx Ht.
  pose proof (held_view s c o t _ Hs Ht) as Hv. cbv zeta in Hv.
  apply drop_behind in Hs. apply deref_head in Hs. rewrite <- Hs in Hx.
  destruct t as [long k|long k v|long k q|w|q];
    cbn [held token_start effect] in Hv |- *.
  - destruct Hv as [Hlt Hv].
    rewrite step_key_ws by assumption. now rewrite Hv.
  - destruct Hv as (_ & Hv & Hne).
    rewrite step_value_ws by assumption. now rewrite Hv, Hne.
  - now apply step_none_ws.
  - destruct Hv as [_ Hv].
    rewrite step_value_ws by assumption. now rewrite Hv.
  - now apply step_none_ws.
Qed.

(** Whitespace between tokens is skipped. *)
Lemma parse_loop_skip_ws (single_value : bool) (w rest : list ascii)
    (fuel c ts : nat) (o : options) :
  drop c s = w ++ rest -> whitespace w = true ->
  parse_loop (length w + fuel) s single_value c
    (mk_frame parse_state.none ts [] o)
  = parse_loop fuel s single_value (c + length w)
      (mk_frame parse_state.none ts [] o).
Proof.
  intros Hs Hw.
  assert (Hd : forall i, i < length w ->
                         is_whitespace (deref s (c + i)) = true).
  { intros i Hi. rewrite (deref_from s _ c i Hs).
    now apply forallb_deref. }
  rewrite parse_loop_scan.
  - rewrite scan_idle; [reflexivity|].
    intros i Hi. apply step_none_ws. now apply Hd.
  - intros i Hi. now apply whitespace_not_special, Hd.
Qed.

Lemma parse_loop_spell (t : token) (rest : list ascii) (fuel c ts : nat)
    (o : options) :
  drop c s = spell t ++ rest -> valid_token t = true ->
  parse_loop (length (spell t) + fuel) s false c
    (mk_frame parse_state.none ts [] o)
  = parse_loop fuel s false (c + length (spell t)) (held t c o).
Proof.
  intros Hs Ht. rewrite parse_loop_scan.
  - now rewrite (scan_spell s false c ts o t rest Hs Ht).
  - intros i Hi. rewrite (deref_from s _ c i Hs).
    rewrite deref_app_l by assumption.
    exact (proj1 (List.Forall_nth _ _) (spell_not_eol t Ht) i NUL Hi).
Qed.

Lemma parse_loop_end_none (fuel c ts : nat) (o : options) :
  drop c s = [] ->
  self (parse_loop (S fuel) s false c (mk_frame parse_state.none ts [] o))
  = o.
Proof.
  intros Hs.
  assert (Hc : deref s c = NUL).
  { rewrite <- (Nat.add_0_r c). now rewrite (deref_from s _ c 0 Hs). }
  rewrite parse_loop_eol by now rewrite Hc.
  unfold step. rewrite Hc. simpl. unfold flush. simpl.
  now rewrite Nat.ltb_irrefl.
Qed.

Lemma parse_loop_spaced (l : list (token * list ascii)) :
  valid_spaced l = true ->
  forall (fuel c ts : nat) (o : options),
    drop c s = spaced l -> length (spaced l) < fuel ->
    self (parse_loop fuel s false c (mk_frame parse_state.none ts [] o))
    = fold_left effect (tokens l) o.
Proof.
  induction l as [|[t w] l IH]; intros Hl fuel c ts o Hs Hfuel.
  - destruct fuel as [|fuel]; [simpl in Hfuel; lia|].
    now apply parse_loop_end_none.
  - cbn [valid_spaced] in Hl. apply andb_true_iff in Hl.
    destruct Hl as [Hl Hrest]. apply andb_true_iff in Hl.
    destruct Hl as [Hl Hlast]. apply andb_true_iff in Hl.
    destruct Hl as [Ht Hw].
    cbn [spaced] in Hs, Hfuel. rewrite !length_app in Hfuel.
    cbn [tokens map fst fold_left]. fold (tokens l).
    replace fuel
      with (length (spell t) + (fuel - length (spell t))) by lia.
    rewrite (parse_loop_spell t _ _ c ts o Hs Ht).
    destruct w as [|x w].
    + (* the last token, closed by the terminator *)
      destruct l as [|p l]; [|discriminate Hlast].
      simpl in Hs. rewrite app_nil_r in Hs.
      replace (fuel - length (spell t))
        with (S (fuel - length (spell t) - 1)) by lia.
      rewrite parse_loop_eol.
      * exact (held_eol s false c o t Hs Ht).
      * rewrite <- (app_nil_r (spell t)) in Hs. apply drop_behind in Hs.
        rewrite <- (Nat.add_0_r (c + length (spell t))).
        now rewrite (deref_from s _ _ 0 Hs).
    + (* closed by whitespace *)
      cbn [whitespace forallb] in Hw. apply andb_true_iff in Hw.
      destruct Hw as [Hx Hw].
      change ((x :: w) ++ spaced l) with (x :: w ++ spaced l) in Hs.
      pose proof (held_ws c o t x _ Hs Hx Ht) as Hstep.
      apply drop_behind in Hs.
      pose proof (deref_head s _ _ _ Hs) as Hd.
      apply drop_next in Hs. simpl length in Hfuel.
      replace (fuel - length (spell t))
        with (S (length w + (fuel - length (spell t) - 1 - length w)))
        by lia.
      cbn [parse_loop].
      replace (is_eol (deref s (c + length (spell t)))) with false
        by (symmetry; rewrite Hd; now apply whitespace_not_special).
      rewrite Hstep.
      replace (S (c + length (spell t))) with (c + length (spell t) + 1)
        by lia.
      rewrite (parse_loop_skip_ws false w (spaced l)) by assumption.
      apply drop_behind in Hs.
      apply IH; [assumption | assumption | lia].
Qed.

End Whitespace.

Lemma parse_upto_spaced (bound : nat) (lead : list ascii)
    (l : list (token * list ascii)) (o : options) :
  whitespace lead = true -> valid_spaced l = true ->
  length (lead ++ spaced l) < bound ->
  parse_upto bound (lead ++ spaced l) false o = fold_left effect (tokens l) o.
Proof.
  intros Hlead Hl Hb. unfold parse_upto, entry.
  rewrite length_app in Hb.
  replace bound with (length lead + (bound - length lead)) by lia.
  rewrite (parse_loop_skip_ws (lead ++ spaced l) false lead (spaced l))
    by (try assumption; apply drop_0).
  apply parse_loop_spaced; [assumption | | lia].
  simpl. apply drop_app_length.
Qed.

(** X7: the tokenizer on a command line, in multi-token mode. For
    well-formed tokens separated by runs of blanks, tabs, carriage returns
    and line feeds of any length, with or without whitespace in front and
    behind, the parse does to the object what the tokens say, one after the
    other: a flag makes its key present, a keyed value (quoted or not)
    replaces the value of its key, a bare or quoted token is appended to
    the positional arguments. *)
Theorem parse_spaced_command_line (lead : list ascii)
    (l : list (token * list ascii)) (o : options) :
  whitespace lead = true -> valid_spaced l = true ->
  length (lead ++ spaced l) < max_length ->
  parse (lead ++ spaced l) false o = fold_left effect (tokens l) o.
Proof. apply parse_upto_spaced. Qed.

Lemma parse_spaced_command_line_witness :
  parse ([SP; TAB]
         ++ spaced [(flag true (cstr "v"), [SP; SP]);
                    (keyed_quoted false (cstr "k") (cstr "a  b"), [LF]);
                    (word (cstr "x=y"), [TAB; SP]);
                    (quoted (cstr "-p q"), [])])
    false empty_options
  = {| a := [cstr "x=y"; cstr "-p q"];
       opts := <[cstr "k" := cstr "a  b"]> (<[cstr "v" := []]> ∅) |}.
Proof.
  rewrite parse_spaced_command_line; [reflexivity..|].
  apply Nat.ltb_lt. vm_compute. reflexivity.
Defined.

(** ** The two constructors agree *)

Lemma tokens_fit (bound : nat) (l : list (token * list ascii)) :
  length (spaced l) < bound ->
  forallb (fun t => length (spell t) <? bound) (tokens l) = true.
Proof.
  induction l as [|[t w] l IH]; intros H; [reflexivity|].
  cbn [spaced] in H. rewrite !length_app in H.
  cbn [tokens map fst forallb]. apply andb_true_iff. split.
  - apply Nat.ltb_lt. lia.
  - apply IH. lia.
Qed.

Lemma valid_spaced_tokens (l : list (token * list ascii)) :
  valid_spaced l = true -> forallb valid_token (tokens l) = true.
Proof.
  induction l as [|[t w] l IH]; intros H; [reflexivity|].
  cbn [valid_spaced] in H. apply andb_true_iff in H. destruct H as [H Hl].
  apply andb_true_iff in H. destruct H as [H _].
  apply andb_true_iff in H. destruct H as [Ht _].
  cbn [tokens map fst forallb]. rewrite Ht. now apply IH.
Qed.

Lemma options_argv_spaced (prog lead : list ascii)
    (l : list (token * list ascii)) :
  valid_spaced l = true -> length (lead ++ spaced l) < max_length ->
  options_argv (S (length (tokens l))) (prog :: map spell (tokens l))
  = fold_left effect (tokens l) empty_options.
Proof.
  intros Hl Hb. apply options_argv_tokens.
  - now apply valid_spaced_tokens.
  - unfold fits. apply tokens_fit. rewrite length_app in Hb.
    revert Hb. generalize max_length. intros bound Hb. lia.
Qed.

(** X8: the two constructors agree on well-formed tokens within the scan
    bound. An argument vector that holds a program name and then one token
    per element yields the same object as the command line that holds the
    same tokens separated by whitespace, provided that the command line is
    shorter than [max_length] = 4096 characters. The bound is needed: the
    command line is cut at [max_length] characters as a whole, the
    argument vector element by element. *)
Theorem constructors_agree (prog lead : list ascii)
    (l : list (token * list ascii)) :
  whitespace lead = true -> valid_spaced l = true ->
  length (lead ++ spaced l) < max_length ->
  options_argv (S (length (tokens l))) (prog :: map spell (tokens l))
  = options_cmd_line (lead ++ spaced l).
Proof.
  intros Hlead Hl Hb. unfold options_cmd_line, parse.
  rewrite parse_upto_spaced by assumption.
  now apply (options_argv_spaced prog lead).
Qed.

Lemma constructors_agree_witness :
  options_argv 4
    (cstr "prog"
     :: map spell (tokens [(keyed true (cstr "t") (cstr "42"), [SP]);
                           (flag false (cstr "u"), [SP; SP]);
                           (quoted (cstr "a b"), [])]))
  = options_cmd_line
      ([SP] ++ spaced [(keyed true (cstr "t") (cstr "42"), [SP]);
                       (flag false (cstr "u"), [SP; SP]);
                       (quoted (cstr "a b"), [])]).
Proof.
  apply (constructors_agree (cstr "prog") [SP]
           [(keyed true (cstr "t") (cstr "42"), [SP]);
            (flag false (cstr "u"), [SP; SP]);
            (quoted (cstr "a b"), [])]); [reflexivity | reflexivity|].
  apply Nat.ltb_lt. vm_compute. reflexivity.
Defined.

(** ** Positional arguments by index *)

(** X9: [arg] and [arg_count]. On any object, [arg(index)] returns a view
    exactly when [index < arg_count()] and throws an out-of-range
    exception exactly otherwise. After a command line of well-formed
    tokens separated by whitespace that is shorter than [max_length] = 4096
    characters, the positional arguments are the bare and the quoted
    tokens in the order in which they were met: [arg_count()] is their
    number and [arg(i)] is the i-th of them. *)
Theorem arg_spec :
  (forall (o : options) (i : nat),
     (i < arg_count o <-> exists v, arg o i = returns v) /\
     (arg_count o <= i <-> exists what, arg o i = throws (out_of_range what)))
  /\
  (forall (lead : list ascii) (l : list (token * list ascii)) (i : nat)
          (v : list ascii),
     whitespace lead = true -> valid_spaced l = true ->
     length (lead ++ spaced l) < max_length ->
     let o := options_cmd_line (lead ++ spaced l) in
     args o = positional (tokens l) /\
     arg_count o = length (positional (tokens l)) /\
     (arg o i = returns v <-> positional (tokens l) !! i = Some v)).
Proof.
  split.
  - intros o i. unfold arg, arg_count.
    destruct (a o !! i) as [v|] eqn:E.
    + pose proof (lookup_lt_Some _ _ _ E) as Hlt. split; split.
      * eauto.
      * intros _. assumption.
      * lia.
      * intros [what H]. discriminate H.
    + pose proof (proj1 (lookup_ge_None _ _) E) as Hge. split; split.
      * lia.
      * intros [v H]. discriminate H.
      * eauto.
      * intros _. assumption.
  - intros lead l i v Hlead Hl Hb. cbv zeta.
    unfold options_cmd_line, parse.
    rewrite parse_upto_spaced by assumption.
    unfold args, arg_count, arg. rewrite args_effects. simpl.
    split; [reflexivity|]. split; [reflexivity|].
    destruct (positional (tokens l) !! i); split; congruence.
Qed.

Lemma arg_spec_witness :
  arg (options_cmd_line
         (spaced [(word (cstr "x"), [SP]); (flag true (cstr "f"), [SP]);
                  (quoted (cstr "y z"), [])])) 1
  = returns (cstr "y z").
Proof.
  destruct arg_spec as [_ H].
  apply (H [] [(word (cstr "x"), [SP]); (flag true (cstr "f"), [SP]);
               (quoted (cstr "y z"), [])] 1 (cstr "y z"));
    [reflexivity | reflexivity | | reflexivity].
  apply Nat.ltb_lt. vm_compute. reflexivity.
Defined.

(** ** The keys of a command line *)

Lemma has_opt_effect (o : options) (t : token) (k : list ascii) :
  has_opt (effect o t) k = has_opt o k || mentions k t.
Proof.
  unfold has_opt, find_opt.
  destruct t as [long k'|long k' v|long k' v|w|q]; simpl.
  - rewrite lookup_subscript. case_bool_decide.
    + now rewrite orb_true_r.
    + now rewrite orb_false_r.
  - case_bool_decide as Hk.
    + subst k'. now rewrite lookup_insert_eq, orb_true_r.
    + now rewrite lookup_insert_ne, orb_false_r.
  - case_bool_decide as Hk.
    + subst k'. now rewrite lookup_insert_eq, orb_true_r.
    + now rewrite lookup_insert_ne, orb_false_r.
  - now rewrite orb_false_r.
  - now rewrite orb_false_r.
Qed.

Lemma has_opt_effects (k : list ascii) (ts : list token) :
  forall o : options,
    has_opt (fold_left effect ts o) k = has_opt o k || existsb (mentions k) ts.
Proof.
  induction ts as [|t ts IH]; intros o; simpl.
  - now rewrite orb_false_r.
  - now rewrite IH, has_opt_effect, orb_assoc.
Qed.

(** X10: within the scan bound the keys of the object are the keys of
    the tokens, no more and no less. After a command line of well-formed
    tokens separated by whitespace that is shorter than [max_length] = 4096
    characters, and after an argument vector of one well-formed token per
    element, each element shorter than [max_length] characters,
    [has_opt(key)] is true exactly when some token is a flag or a keyed
    value for that key. *)
Theorem has_opt_spec :
  (forall (lead : list ascii) (l : list (token * list ascii))
          (k : list ascii),
     whitespace lead = true -> valid_spaced l = true ->
     length (lead ++ spaced l) < max_length ->
     has_opt (options_cmd_line (lead ++ spaced l)) k
     = existsb (mentions k) (tokens l)) /\
  (forall (prog : list ascii) (ts : list token) (k : list ascii),
     forallb valid_token ts = true -> fits ts = true ->
     has_opt (options_argv (S (length ts)) (prog :: map spell ts)) k
     = existsb (mentions k) ts).
Proof.
  split.
  - intros lead l k Hlead Hl Hb. unfold options_cmd_line, parse.
    rewrite parse_upto_spaced by assumption.
    now rewrite has_opt_effects.
  - intros prog ts k Hv Hf. rewrite options_argv_tokens by assumption.
    now rewrite has_opt_effects.
Qed.

Lemma has_opt_spec_witness :
  has_opt (options_cmd_line
             (spaced [(word (cstr "k"), [SP]);
                      (keyed true (cstr "j") (cstr "k"), [])]))
          (cstr "k")
  = false /\
  has_opt (options_argv 3
             (cstr "prog"
              :: map spell [word (cstr "x"); flag false (cstr "z")]))
          (cstr "z")
  = true.
Proof.
  destruct has_opt_spec as [Hcl Hargv].
  split.
  - apply (Hcl []
             [(word (cstr "k"), [SP]); (keyed true (cstr "j") (cstr "k"), [])]
             (cstr "k")); [reflexivity | reflexivity|].
    apply Nat.ltb_lt. vm_compute. reflexivity.
  - apply (Hargv (cstr "prog") [word (cstr "x"); flag false (cstr "z")]
             (cstr "z")); reflexivity.
Defined.

(** ** Keyed values, read back *)

Lemma nul_free_not_eol (v : list ascii) :
  nul_free v = true -> Forall (fun ch => is_eol ch = false) v.
Proof.
  apply forallb_not_eol. intros ch H. now apply negb_true_iff in H.
Qed.

Lemma step_value_single (s : list ascii) (c ts : nat) (k : list ascii)
    (o : options) :
  ts < c \/ is_quote (deref s c) = false ->
  step s true c (mk_frame parse_state.value ts k o)
  = mk_frame parse_state.value ts k o.
Proof.
  intros H. unfold step. simpl ps. simpl token_start.
  rewrite andb_false_r.
  destruct H as [Hlt|Hq].
  - replace (ts =? c) with false by (symmetry; apply Nat.eqb_neq; lia).
    now rewrite andb_false_r.
  - now rewrite Hq.
Qed.

Lemma scan_value_single (s : list ascii) (c : nat) (k : list ascii)
    (o : options) (v rest : list ascii) :
  drop c s = v ++ rest -> is_quote (hd NUL v) = false ->
  scan (length v) s true c (mk_frame parse_state.value c k o)
  = mk_frame parse_state.value c k o.
Proof.
  intros Hs Hq. apply scan_idle. intros i Hi. apply step_value_single.
  destruct i as [|i]; [right | left; lia].
  rewrite (deref_from s _ c 0 Hs).
  destruct v; [simpl in Hi; lia | exact Hq].
Qed.

Lemma keyed_text_not_eol (long : bool) (k v : list ascii) :
  valid_key k = true -> Forall (fun ch => is_eol ch = false) v ->
  Forall (fun ch => is_eol ch = false) (dashes long ++ k ++ EQUAL :: v).
Proof.
  intros Hk Hv. apply Forall_app. split; [apply dashes_not_eol|].
  apply Forall_app. split; [now apply valid_key_not_eol|].
  now constructor.
Qed.

Lemma parse_upto_single_keyed (bound : nat) (long : bool) (k v : list ascii)
    (o : options) :
  valid_key k = true -> single_value_text v = true ->
  length (dashes long ++ k ++ EQUAL :: v) < bound ->
  parse_upto bound (dashes long ++ k ++ EQUAL :: v) true o
  = {| a := a o; opts := <[k := v]> (opts o) |}.
Proof.
  intros Hk Hv Hb. apply andb_true_iff in Hv. destruct Hv as [Hq Hv].
  apply negb_true_iff in Hq.
  rewrite parse_upto_terminated;
    [|apply keyed_text_not_eol; [assumption | now apply nul_free_not_eol]
     |assumption].
  remember (dashes long ++ k ++ EQUAL :: v) as s eqn:Es.
  assert (Hs : drop 0 s = dashes long ++ k ++ EQUAL :: v)
    by (rewrite Es; apply drop_0).
  destruct (scan_key s true 0 0 o long k _ Hs Hk)
    as (Hlt & Hrest & Hview & Hscan).
  replace (length s) with ((length (dashes long) + length k) + S (length v))
    by (rewrite Es, !length_app; simpl; lia).
  unfold entry. rewrite scan_add, Hscan.
  rewrite scan_S, step_key_equal by now apply (deref_head s _ _ _ Hrest).
  rewrite Hview. apply drop_next in Hrest.
  rewrite <- (app_nil_r v) in Hrest.
  rewrite (scan_value_single s _ k o v [] Hrest Hq).
  pose proof (view_head s _ _ _ Hrest) as Hval.
  apply drop_behind in Hrest.
  assert (Hend : deref s (0 + (length (dashes long) + length k) + 1
                          + length v) = NUL).
  { rewrite <- (Nat.add_0_r (_ + length v)).
    now rewrite (deref_from s _ _ 0 Hrest). }
  replace (length (dashes long) + length k + S (length v))
    with (0 + (length (dashes long) + length k) + 1 + length v) by lia.
  rewrite step_value_single by (right; now rewrite Hend).
  unfold flush. simpl ps. simpl key. simpl token_start. simpl self.
  rewrite !Nat.add_0_l in Hval.
  now rewrite (valid_key_nonempty k Hk), Hval.
Qed.

(** X11: within the scan bound a keyed value is read back as it was
    written. For a well-formed key and a token, dashes and key and value
    together, shorter than [max_length] = 4096 characters: after
    [-key=value] or [--key=value] given alone, in either mode,
    [get_string(key)] is the value, and after the key with a value between
    two quotes it is the text without the two quotes, whatever the text
    holds besides a quote. Given as one argv element, the value may hold
    whitespace and is read back whole. *)
Theorem keyed_value_read_back :
  (forall (single_value long : bool) (k v : list ascii) (o : options),
     valid_key k = true -> valid_value v = true ->
     length (spell (keyed long k v)) < max_length ->
     get_string (parse (spell (keyed long k v)) single_value o) k = Some v) /\
  (forall (single_value long : bool) (k q : list ascii) (o : options),
     valid_key k = true -> valid_quoted q = true ->
     length (spell (keyed_quoted long k q)) < max_length ->
     get_string (parse (spell (keyed_quoted long k q)) single_value o) k
     = Some q) /\
  (forall (long : bool) (k v : list ascii) (o : options),
     valid_key k = true -> single_value_text v = true ->
     length (dashes long ++ k ++ EQUAL :: v) < max_length ->
     parse (dashes long ++ k ++ EQUAL :: v) true o
     = {| a := a o; opts := <[k := v]> (opts o) |} /\
     get_string (parse (dashes long ++ k ++ EQUAL :: v) true o) k = Some v).
Proof.
  split; [|split].
  - intros single_value long k v o Hk Hv Hb.
    rewrite parse_token;
      [|cbn [valid_token]; now rewrite Hk, Hv | assumption].
    unfold get_string, find_opt. simpl. now rewrite lookup_insert_eq.
  - intros single_value long k q o Hk Hq Hb.
    rewrite parse_token;
      [|cbn [valid_token]; now rewrite Hk, Hq | assumption].
    unfold get_string, find_opt. simpl. now rewrite lookup_insert_eq.
  - intros long k v o Hk Hv Hb.
    assert (H : parse (dashes long ++ k ++ EQUAL :: v) true o
                = {| a := a o; opts := <[k := v]> (opts o) |})
      by now apply parse_upto_single_keyed.
    split; [exact H|]. rewrite H.
    unfold get_string, find_opt. simpl. now rewrite lookup_insert_eq.
Qed.

Lemma keyed_value_read_back_witness :
  get_string (parse (spell (keyed true (cstr "k") (cstr "a=b"))) false
                empty_options) (cstr "k")
  = Some (cstr "a=b") /\
  get_string (parse (spell (keyed_quoted false (cstr "k") (cstr "a  -b")))
                true empty_options) (cstr "k")
  = Some (cstr "a  -b") /\
  get_string (parse (dashes true ++ cstr "k" ++ EQUAL :: cstr "two words")
                true empty_options) (cstr "k")
  = Some (cstr "two words").
Proof.
  destruct keyed_value_read_back as (H1 & H2 & H3).
  split; [|split].
  - apply H1; [reflexivity | reflexivity|].
    apply Nat.ltb_lt. vm_compute. reflexivity.
  - apply H2; [reflexivity | reflexivity|].
    apply Nat.ltb_lt. vm_compute. reflexivity.
  - apply H3; [reflexivity | reflexivity|].
    apply Nat.ltb_lt. vm_compute. reflexivity.
Defined.

(** ** A quote left open *)

Lemma scan_open_quote (s : list ascii) (single_value : bool) (c ts : nat)
    (o : options) (q rest : list ascii) :
  drop c s = QUOTE :: q ++ rest -> valid_quoted q = true ->
  scan (S (length q)) s single_value c (mk_frame parse_state.none ts [] o)
  = mk_frame parse_state.quoted_value c [] o /\
  view s (c + 1) (c + 1 + length q) = q /\
  drop (c + 1 + length q) s = rest.
Proof.
  intros Hs Hq.
  rewrite scan_S, step_none_quote by now apply (deref_head s _ _ _ Hs).
  apply drop_next in Hs.
  rewrite (scan_quoted_body s single_value (c + 1) c [] o q rest)
    by assumption.
  split; [reflexivity|]. split; [now apply (view_head s q rest)|].
  now apply drop_behind in Hs.
Qed.

Lemma scan_open_keyed_quote (s : list ascii) (single_value : bool)
    (c ts : nat) (o : options) (long : bool) (k q rest : list ascii) :
  drop c s = dashes long ++ k ++ EQUAL :: QUOTE :: q ++ rest ->
  valid_key k = true -> valid_quoted q = true ->
  let t' := c + (length (dashes long) + length k) + 1 in
  scan ((length (dashes long) + length k) + S (S (length q))) s single_value
    c (mk_frame parse_state.none ts [] o)
  = mk_frame parse_state.quoted_value t' k o /\
  view s (t' + 1) (t' + 1 + length q) = q /\
  drop (t' + 1 + length q) s = rest.
Proof.
  intros Hs Hk Hq. cbv zeta.
  destruct (scan_key s single_value c ts o long k _ Hs Hk)
    as (Hlt & Hrest & Hview & Hscan).
  rewrite scan_add, Hscan.
  rewrite scan_S, step_key_equal by now apply (deref_head s _ _ _ Hrest).
  rewrite Hview. apply drop_next in Hrest.
  rewrite scan_S, step_value_quote by now apply (deref_head s _ _ _ Hrest).
  apply drop_next in Hrest.
  rewrite (scan_quoted_body s single_value _ _ k o q rest) by assumption.
  split; [reflexivity|]. split; [now apply (view_head s q rest)|].
  now apply drop_behind in Hrest.
Qed.

Lemma flush_open_quote (s : list ascii) (single_value : bool) (c ts : nat)
    (k q : list ascii) (o : options) :
  drop c s = [] -> view s (ts + 1) c = q ->
  self (flush s c
          (step s single_value c (mk_frame parse_state.quoted_value ts k o)))
  = if nonempty k
    then {| a := a o; opts := <[k := q]> (opts o) |}
    else {| a := a o ++ [q]; opts := opts o |}.
Proof.
  intros Hs Hv.
  assert (Hc : deref s c = NUL).
  { rewrite <- (Nat.add_0_r c). now rewrite (deref_from s _ c 0 Hs). }
  rewrite step_quoted_idle by now rewrite Hc.
  unfold flush. simpl. rewrite Hv. now destruct (nonempty k).
Qed.

(** X12: within the scan bound a quote that is never closed is closed by
    the end of the input. In either mode, an input shorter than
    [max_length] = 4096 characters that ends inside a quoted value stores
    the text behind the opening quote, be it empty: as a positional
    argument when the input is the opening quote and the text, as the
    value of the key when the input is a well-formed key, the equal sign,
    the opening quote and the text. *)
Theorem open_quote_flushed :
  (forall (single_value : bool) (q : list ascii) (o : options),
     valid_quoted q = true -> length (QUOTE :: q) < max_length ->
     parse (QUOTE :: q) single_value o
     = {| a := a o ++ [q]; opts := opts o |}) /\
  (forall (single_value long : bool) (k q : list ascii) (o : options),
     valid_key k = true -> valid_quoted q = true ->
     length (dashes long ++ k ++ EQUAL :: QUOTE :: q) < max_length ->
     parse (dashes long ++ k ++ EQUAL :: QUOTE :: q) single_value o
     = {| a := a o; opts := <[k := q]> (opts o) |}).
Proof.
  assert (Hqe : forall q, valid_quoted q = true ->
                          Forall (fun ch => is_eol ch = false) q).
  { intros q. apply forallb_not_eol. intros ch Hch.
    now apply quoted_char_true in Hch. }
  split.
  - intros single_value q o Hq Hb. unfold parse.
    rewrite parse_upto_terminated;
      [|constructor; [reflexivity | now apply Hqe] | assumption].
    assert (Hs : drop 0 (QUOTE :: q) = QUOTE :: q ++ [])
      by now rewrite app_nil_r.
    destruct (scan_open_quote _ single_value 0 0 o q [] Hs Hq)
      as (Hscan & Hview & Hend).
    unfold entry. simpl length. rewrite Hscan.
    rewrite (flush_open_quote _ single_value (S (length q)) 0 [] q o);
      [reflexivity | exact Hend | exact Hview].
  - intros single_value long k q o Hk Hq Hb. unfold parse.
    rewrite parse_upto_terminated;
      [|apply keyed_text_not_eol;
        [assumption | constructor; [reflexivity | now apply Hqe]]
       |assumption].
    remember (dashes long ++ k ++ EQUAL :: QUOTE :: q) as s eqn:Es.
    assert (Hs : drop 0 s = dashes long ++ k ++ EQUAL :: QUOTE :: q ++ [])
      by (rewrite Es, app_nil_r; apply drop_0).
    destruct (scan_open_keyed_quote s single_value 0 0 o long k q [] Hs Hk Hq)
      as (Hscan & Hview & Hend).
    assert (Hlen : length s
                   = (length (dashes long) + length k) + S (S (length q)))
      by (rewrite Es, !length_app; simpl; lia).
    unfold entry. rewrite Hlen, Hscan.
    rewrite (flush_open_quote s single_value _ _ k q o).
    + now rewrite (valid_key_nonempty k Hk).
    + etransitivity; [|exact Hend]. f_equal. lia.
    + etransitivity; [|exact Hview]. f_equal; lia.
Qed.

Lemma open_quote_flushed_witness :
  parse (QUOTE :: cstr "never closed") false empty_options
  = {| a := [cstr "never closed"]; opts := ∅ |} /\
  parse [QUOTE] true empty_options = {| a := [[]]; opts := ∅ |} /\
  get_string
    (parse (dashes true ++ cstr "k" ++ EQUAL :: QUOTE :: cstr "a b") false
       empty_options) (cstr "k")
  = Some (cstr "a b").
Proof.
  destruct open_quote_flushed as [H1 H2].
  split; [|split].
  - apply (H1 false (cstr "never closed") empty_options); [reflexivity|].
    apply Nat.ltb_lt. vm_compute. reflexivity.
  - apply (H1 true [] empty_options); [reflexivity|].
    apply Nat.ltb_lt. vm_compute. reflexivity.
  - rewrite (H2 false true (cstr "k") (cstr "a b") empty_options);
      [vm_compute; reflexivity | reflexivity | reflexivity|].
    apply Nat.ltb_lt. vm_compute. reflexivity.
Defined.

(** ** [strip_quotes] within its bounds *)

Lemma strip_quotes_result_nonempty (m : list ascii) (sp : span) :
  sv_begin sp <= sv_end sp ->
  sv_begin (result (strip_quotes m sp)) < sv_end (result (strip_quotes m sp)).
Proof.
  destruct sp as [b e]. simpl. intros Hbe. unfold strip_quotes. simpl.
  destruct (is_quote (deref m b)); simpl;
    destruct (Nat.eqb_spec b e); simpl;
    repeat match goal with
           | |- context [?x =? ?y] => destruct (Nat.eqb_spec x y); simpl
           | |- context [is_quote ?x] => destruct (is_quote x); simpl
           end; lia.
Qed.

(** X13: [strip_quotes] on a view of at least one character other than
    the view of a single quote stays within the view: the two characters
    it reads are the first and the last of the view, and the view it
    returns is a sub-range of the input that is not empty. On any view at
    all the result spans at least one character: the function never
    returns an empty view. *)
Theorem strip_quotes_within_bounds :
  (forall pre s post : list ascii,
     s <> [] -> s <> [QUOTE] ->
     let m := pre ++ s ++ post in
     let r := strip_quotes m (window pre s) in
     reads r = [length pre; length pre + length s - 1] /\
     Forall (in_view (window pre s)) (reads r) /\
     sub_range (window pre s) (result r) /\
     contents m (result r) <> []) /\
  (forall (m : list ascii) (sp : span),
     sv_begin sp <= sv_end sp ->
     sv_begin (result (strip_quotes m sp))
     < sv_end (result (strip_quotes m sp))).
Proof.
  split; [|exact strip_quotes_result_nonempty].
  intros pre s post Hn Hq. cbv zeta.
  destruct (strip_quotes_window pre s post Hn Hq) as (_ & Hreads & Hsub).
  cbv zeta in Hreads, Hsub.
  assert (Hlen : 0 < length s) by (destruct s; [contradiction | simpl; lia]).
  split; [exact Hreads|]. split; [|split; [exact Hsub|]].
  - rewrite Hreads. unfold in_view, window. simpl.
    repeat constructor; lia.
  - pose proof (strip_quotes_result_nonempty (pre ++ s ++ post)
                  (window pre s)) as Hne.
    unfold window in Hne at 1 2. simpl sv_begin in Hne at 1.
    simpl sv_end in Hne at 1. specialize (Hne ltac:(lia)).
    unfold contents. apply view_nonempty; [exact Hne|].
    destruct Hsub as (_ & _ & Hend).
    change (sv_end (window pre s)) with (length pre + length s) in Hend.
    rewrite !length_app. lia.
Qed.

Lemma strip_quotes_within_bounds_witness :
  sub_range (window (cstr "x") ([QUOTE] ++ cstr "ab"))
    (result (strip_quotes (cstr "x" ++ ([QUOTE] ++ cstr "ab") ++ cstr "y")
               (window (cstr "x") ([QUOTE] ++ cstr "ab")))).
Proof.
  destruct strip_quotes_within_bounds as [H _].
  apply (H (cstr "x") ([QUOTE] ++ cstr "ab") (cstr "y")); discriminate.
Defined.

(** ** Typed values of a parsed key *)

Lemma is_digit_value_char (c : ascii) :
  is_digit c = true -> value_char c = true /\ is_quote c = false.
Proof.
  intros H. unfold value_char, is_whitespace, is_eol, is_quote.
  destruct (Ascii.eqb_spec c SP) as [->|]; [discriminate H|].
  destruct (Ascii.eqb_spec c TAB) as [->|]; [discriminate H|].
  destruct (Ascii.eqb_spec c CR) as [->|]; [discriminate H|].
  destruct (Ascii.eqb_spec c LF) as [->|]; [discriminate H|].
  destruct (Ascii.eqb_spec c NUL) as [->|]; [discriminate H|].
  destruct (Ascii.eqb_spec c QUOTE) as [->|]; [discriminate H|].
  split; reflexivity.
Qed.

Lemma digits_value_chars (ds : list ascii) :
  forallb is_digit ds = true -> forallb value_char ds = true.
Proof.
  induction ds as [|d ds IH]; [reflexivity|]. simpl. intros H.
  apply andb_true_iff in H. destruct H as [Hd H].
  destruct (is_digit_value_char d Hd) as [-> _]. now apply IH.
Qed.

Lemma digits_Forall (ds : list ascii) :
  forallb is_digit ds = true -> Forall (fun c => is_digit c = true) ds.
Proof.
  intros H. apply List.Forall_forall. intros c Hc.
  rewrite forallb_forall in H. auto.
Qed.

Lemma digit_value_nonneg (c : ascii) :
  is_digit c = true -> (0 <= digit_value c)%Z.
Proof.
  unfold is_digit, digit_value. intros H. apply andb_true_iff in H.
  destruct H as [H _]. apply Nat.leb_le in H. lia.
Qed.

Lemma decimal_from_nonneg (ds : list ascii) :
  forallb is_digit ds = true ->
  forall acc : Z,
    (0 <= acc)%Z ->
    (0 <= fold_left (fun acc d => 10 * acc + digit_value d) ds acc)%Z.
Proof.
  induction ds as [|d ds IH]; intros Hds acc Hacc; [assumption|].
  simpl in Hds |- *. apply andb_true_iff in Hds. destruct Hds as [Hd Hds].
  apply IH; [assumption|]. pose proof (digit_value_nonneg d Hd). lia.
Qed.

Lemma decimal_nonneg (ds : list ascii) :
  forallb is_digit ds = true -> (0 <= decimal ds)%Z.
Proof.
  intros Hds. unfold decimal. apply decimal_from_nonneg; [assumption | lia].
Qed.

Lemma get_string_keyed (single_value long : bool) (k v : list ascii)
    (o : options) :
  valid_key k = true -> valid_value v = true ->
  length (spell (keyed long k v)) < max_length ->
  get_string (parse (spell (keyed long k v)) single_value o) k = Some v.
Proof.
  intros Hk Hv Hb.
  rewrite parse_token; [|cbn [valid_token]; now rewrite Hk, Hv | assumption].
  unfold get_string, find_opt. simpl. now rewrite lookup_insert_eq.
Qed.

Lemma get_bool_true_value (o : options) (k s : list ascii) (d : bool) :
  get_string o k = Some s -> In s (map cstr true_literals) ->
  get_bool o k d = returns true.
Proof.
  intros Hs Hin. unfold get_bool. rewrite Hs.
  destruct (negb (nonempty s)); [reflexivity|].
  apply elem_of_true_values in Hin. now rewrite bool_decide_eq_true_2.
Qed.

Lemma get_bool_false_value (o : options) (k s : list ascii) (d : bool) :
  get_string o k = Some s -> In s (map cstr false_literals) ->
  get_bool o k d = returns false.
Proof.
  intros Hs Hin. unfold get_bool. rewrite Hs.
  assert (Hne : negb (nonempty s) = false).
  { destruct s; [|reflexivity]. simpl in Hin.
    repeat (destruct Hin as [Hin|Hin]; [discriminate Hin|]). contradiction. }
  rewrite Hne.
  assert (Ht : ~ In s (map cstr true_literals))
    by (intros Ht; exact (true_false_disjoint s Ht Hin)).
  rewrite <- elem_of_true_values in Ht.
  apply elem_of_false_values in Hin.
  now rewrite bool_decide_eq_false_2, bool_decide_eq_true_2.
Qed.

Lemma literal_valid_value (lit : string) :
  In lit true_literals \/ In lit false_literals ->
  valid_value (cstr lit) = true.
Proof.
  unfold true_literals, false_literals. simpl.
  intros [H|H]; repeat (destruct H as [<-|H]; [reflexivity|]); contradiction.
Qed.

(** X14: the typed accessors on a key written as [-key=value], in either
    mode and within the scan bound: the key is well formed and the token,
    dashes and key and value together, is shorter than [max_length] = 4096
    characters. When the value is a run of digits, alone or behind a minus
    sign, that denotes a number of the range of [int], [get_int] returns
    this number. When the value is one of the eight true literals
    [get_bool] returns true, and when it is one of the eight false
    literals it returns false, whatever the default. *)
Theorem typed_values_after_parse :
  (forall (single_value long : bool) (k ds : list ascii) (o : options),
     valid_key k = true -> ds <> [] -> forallb is_digit ds = true ->
     (decimal ds <= INT_MAX)%Z ->
     length (spell (keyed long k ds)) < max_length ->
     get_int (parse (spell (keyed long k ds)) single_value o) k
     = Some (decimal ds)) /\
  (forall (single_value long : bool) (k ds : list ascii) (o : options),
     valid_key k = true -> ds <> [] -> forallb is_digit ds = true ->
     (INT_MIN <= - decimal ds)%Z ->
     length (spell (keyed long k (DASH :: ds))) < max_length ->
     get_int (parse (spell (keyed long k (DASH :: ds))) single_value o) k
     = Some (- decimal ds)%Z) /\
  (forall (single_value long d : bool) (k : list ascii) (lit : string)
          (o : options),
     valid_key k = true -> In lit true_literals ->
     length (spell (keyed long k (cstr lit))) < max_length ->
     get_bool (parse (spell (keyed long k (cstr lit))) single_value o) k d
     = returns true) /\
  (forall (single_value long d : bool) (k : list ascii) (lit : string)
          (o : options),
     valid_key k = true -> In lit false_literals ->
     length (spell (keyed long k (cstr lit))) < max_length ->
     get_bool (parse (spell (keyed long k (cstr lit))) single_value o) k d
     = returns false).
Proof.
  split; [|split; [|split]].
  - intros single_value long k ds o Hk Hne Hds Hmax Hb.
    assert (Hv : valid_value ds = true).
    { unfold valid_value. rewrite (digits_value_chars ds Hds).
      destruct ds as [|d ds]; [contradiction|]. simpl in Hds |- *.
      apply andb_true_iff in Hds. destruct Hds as [Hd _].
      now destruct (is_digit_value_char d Hd) as [_ ->]. }
    apply get_int_Some. exists ds.
    split; [now apply get_string_keyed|]. split.
    + rewrite <- (app_nil_r ds) at 1.
      apply prefix_digits; [assumption | now apply digits_Forall | exact I].
    + pose proof (decimal_nonneg ds Hds). unfold in_int_range, INT_MIN. lia.
  - intros single_value long k ds o Hk Hne Hds Hmin Hb.
    assert (Hv : valid_value (DASH :: ds) = true).
    { unfold valid_value. simpl. now rewrite (digits_value_chars ds Hds). }
    apply get_int_Some. exists (DASH :: ds).
    split; [now apply get_string_keyed|]. split.
    + rewrite <- (app_nil_r ds) at 1.
      apply prefix_minus; [assumption | now apply digits_Forall | exact I].
    + pose proof (decimal_nonneg ds Hds). unfold in_int_range, INT_MAX. lia.
  - intros single_value long d k lit o Hk Hin Hb.
    apply (get_bool_true_value _ k (cstr lit)).
    + apply get_string_keyed; [assumption | | assumption].
      apply literal_valid_value. now left.
    + now apply in_map.
  - intros single_value long d k lit o Hk Hin Hb.
    apply (get_bool_false_value _ k (cstr lit)).
    + apply get_string_keyed; [assumption | | assumption].
      apply literal_valid_value. now right.
    + now apply in_map.
Qed.

Lemma typed_values_after_parse_witness :
  get_int (parse (spell (keyed true (cstr "n") (cstr "2147483647"))) false
             empty_options) (cstr "n")
  = Some 2147483647%Z /\
  get_int (parse (spell (keyed false (cstr "n") (DASH :: cstr "2147483648")))
             true empty_options) (cstr "n")
  = Some (-2147483648)%Z /\
  get_bool (parse (spell (keyed true (cstr "b") (cstr "YES"))) false
              empty_options) (cstr "b") false
  = returns true /\
  get_bool (parse (spell (keyed true (cstr "b") (cstr "no"))) true
              empty_options) (cstr "b") true
  = returns false.
Proof.
  destruct typed_values_after_parse as (Hp & Hm & Ht & Hf).
  split; [|split; [|split]].
  - apply (Hp false true (cstr "n") (cstr "2147483647") empty_options);
      [reflexivity | discriminate | reflexivity | vm_compute; discriminate|].
    apply Nat.ltb_lt. vm_compute. reflexivity.
  - apply (Hm true false (cstr "n") (cstr "2147483648") empty_options);
      [reflexivity | discriminate | reflexivity | vm_compute; discriminate|].
    apply Nat.ltb_lt. vm_compute. reflexivity.
  - apply (Ht false true false (cstr "b") "YES"%string empty_options);
      [reflexivity | simpl; tauto|].
    apply Nat.ltb_lt. vm_compute. reflexivity.
  - apply (Hf true true true (cstr "b") "no"%string empty_options);
      [reflexivity | simpl; tauto|].
    apply Nat.ltb_lt. vm_compute. reflexivity.
Defined.

(** ** The argument vector *)

Lemma fold_left_agree_in {A B : Type} (F G : A -> B -> A) (l : list B) :
  (forall y, In y l -> forall x, F x y = G x y) ->
  forall x, fold_left F l x = fold_left G l x.
Proof.
  induction l as [|y l IH]; intros H x; [reflexivity|].
  simpl. rewrite (H y) by now left.
  apply IH. intros z Hz. apply H. now right.
Qed.

Lemma options_argv_agree (argc : nat) (argv argv' : list (list ascii)) :
  (forall i, 1 <= i < argc -> nth i argv [] = nth i argv' []) ->
  options_argv argc argv = options_argv argc argv'.
Proof.
  intros H. unfold options_argv.
  apply (fold_left_agree_in
           (fun o i => parse (nth i argv []) true o)
           (fun o i => parse (nth i argv' []) true o)).
  intros i Hi o. apply in_seq in Hi. rewrite H by lia. reflexivity.
Qed.

(** X15: what the argv constructor reads. The element at index 0, the
    program name, has no effect on the object; neither have the elements
    from index [argc] on; and with [argc] at most 1 the object is empty. *)
Theorem argv_elements_read :
  (forall (argc : nat) (prog prog' : list ascii) (rest : list (list ascii)),
     options_argv argc (prog :: rest) = options_argv argc (prog' :: rest)) /\
  (forall (argc : nat) (argv more : list (list ascii)),
     argc <= length argv ->
     options_argv argc (argv ++ more) = options_argv argc argv) /\
  (forall (argc : nat) (argv : list (list ascii)),
     argc <= 1 -> options_argv argc argv = empty_options).
Proof.
  split; [|split].
  - intros argc prog prog' rest. apply options_argv_agree.
    intros i Hi. destruct i as [|i]; [lia | reflexivity].
  - intros argc argv more Hlen. apply options_argv_agree.
    intros i Hi. apply app_nth1. lia.
  - intros argc argv Hle. unfold options_argv.
    replace (argc - 1) with 0 by lia. reflexivity.
Qed.

Lemma argv_elements_read_witness :
  options_argv 2 ([cstr "prog"; cstr "--a"] ++ [cstr "--b"])
  = options_argv 2 [cstr "prog"; cstr "--a"] /\
  options_argv 1 [cstr "--a"] = empty_options.
Proof.
  destruct argv_elements_read as (_ & Hmore & Hone).
  split.
  - apply Hmore. simpl. lia.
  - apply Hone. lia.
Defined.

(** ** Defaults *)

(** X16: the defaults of the accessors. For an absent key the three
    accessors with a default return it. A bare flag is not absent: after
    [-key] or [--key], with a well-formed key and shorter than
    [max_length] = 4096 characters, for a key the object did not hold,
    [get_string] with a default returns the empty view and not the
    default, [get_int] with a default returns the default, the empty view
    being no number, and [get_bool] returns true whatever the default. *)
Theorem defaults_spec :
  (forall (o : options) (k dv : list ascii) (dn : Z) (db : bool),
     has_opt o k = false ->
     get_string_or o k dv = dv /\ get_int_or o k dn = dn /\
     get_bool o k db = returns db) /\
  (forall (single_value long : bool) (o : options) (k dv : list ascii)
          (dn : Z) (db : bool),
     valid_key k = true -> length (spell (flag long k)) < max_length ->
     has_opt o k = false ->
     let o' := parse (spell (flag long k)) single_value o in
     get_string_or o' k dv = [] /\ get_int_or o' k dn = dn /\
     get_bool o' k db = returns true).
Proof.
  split.
  - intros o k dv dn db Ho.
    unfold get_string_or, get_int_or, get_int, get_bool, get_string.
    unfold has_opt in Ho. destruct (find_opt o k); [discriminate Ho|].
    repeat split.
  - intros single_value long o k dv dn db Hk Hb Ho. cbv zeta.
    rewrite parse_token by assumption.
    assert (Hs : get_string (effect o (flag long k)) k = Some []).
    { unfold has_opt, find_opt in Ho. unfold get_string, find_opt. simpl.
      rewrite lookup_subscript, bool_decide_eq_true_2 by reflexivity.
      now destruct (opts o !! k). }
    unfold get_string_or, get_int_or, get_int, get_bool. rewrite Hs.
    repeat split.
Qed.

Lemma defaults_spec_witness :
  get_string_or (parse (spell (flag true (cstr "v"))) false empty_options)
    (cstr "v") (cstr "dflt") = [] /\
  get_int_or (parse (spell (flag true (cstr "v"))) false empty_options)
    (cstr "v") 7%Z = 7%Z /\
  get_int_or empty_options (cstr "v") 7%Z = 7%Z.
Proof.
  destruct defaults_spec as [Habs Hflag].
  destruct (Hflag false true empty_options (cstr "v") (cstr "dflt") 7%Z false)
    as (Hs & Hi & _); [reflexivity | | reflexivity |].
  - apply Nat.ltb_lt. vm_compute. reflexivity.
  - split; [exact Hs|]. split; [exact Hi|].
    apply (Habs empty_options (cstr "v") [] 7%Z false). reflexivity.
Defined.

(** ** Keys that begin with a special character *)

Lemma scan_key_any (s : list ascii) (single_value : bool) (c ts : nat)
    (o : options) (long : bool) (x : ascii) (k rest : list ascii) :
  drop c s = dashes long ++ (x :: k) ++ rest ->
  key_head long x = true -> forallb key_char k = true ->
  let t' := c + length (dashes long) in
  let c' := c + (length (dashes long) + S (length k)) in
  t' < c' /\ drop c' s = rest /\ view s t' c' = x :: k /\
  scan (length (dashes long) + S (length k)) s single_value c
    (mk_frame parse_state.none ts [] o)
  = mk_frame parse_state.key t' [] o.
Proof.
  intros Hs Hx Hk. cbv zeta.
  apply andb_true_iff in Hx. destruct Hx as [Hx Hd].
  apply negb_true_iff, orb_false_iff in Hx. destruct Hx as [Hw He].
  split; [lia|]. split; [|split].
  - rewrite app_assoc in Hs. apply drop_behind in Hs.
    now rewrite length_app in Hs.
  - pose proof (drop_behind s _ _ c Hs) as H1.
    rewrite Nat.add_assoc. now apply (view_head s (x :: k) rest).
  - destruct long; simpl dashes in *; simpl length.
    + pose proof (deref_at s _ c 0 Hs) as H0.
      pose proof (deref_at s _ c 1 Hs) as H1.
      pose proof (deref_at s _ c 2 Hs) as H2.
      pose proof (drop_at s _ c 3 Hs) as H3.
      simpl in H0, H1, H2, H3.
      simpl scan.
      rewrite step_none_dash by assumption.
      rewrite step_key_prefix_dash by assumption.
      rewrite step_long_key_prefix_other by (now rewrite H2).
      rewrite (scan_key_body s single_value (S (S (S c))) _ _ _ k rest)
        by assumption.
      f_equal. lia.
    + simpl in Hd. apply negb_true_iff in Hd.
      pose proof (deref_at s _ c 0 Hs) as H0.
      pose proof (deref_at s _ c 1 Hs) as H1.
      pose proof (drop_at s _ c 2 Hs) as H2.
      simpl in H0, H1, H2.
      simpl scan.
      rewrite step_none_dash by assumption.
      rewrite step_key_prefix_other by (now rewrite H1).
      rewrite (scan_key_body s single_value (S (S c)) _ _ _ k rest)
        by assumption.
      f_equal. lia.
Qed.

Lemma key_any_not_eol (long : bool) (x : ascii) (k rest : list ascii) :
  key_head long x = true -> forallb key_char k = true ->
  Forall (fun ch => is_eol ch = false) rest ->
  Forall (fun ch => is_eol ch = false) (dashes long ++ (x :: k) ++ rest).
Proof.
  intros Hx Hk Hrest.
  apply andb_true_iff in Hx. destruct Hx as [Hx _].
  apply negb_true_iff, orb_false_iff in Hx. destruct Hx as [_ He].
  apply Forall_app. split; [apply dashes_not_eol|].
  apply Forall_app. split; [|assumption].
  constructor; [assumption|].
  apply (forallb_not_eol key_char); [|assumption].
  intros ch Hch. now apply key_char_true in Hch.
Qed.

(** X17: the character behind the key marker begins the key, whatever it
    is. Behind [--] any character but whitespace and the terminator, and
    behind [-] any such character but a dash, is the first character of the
    key, be it an equal sign, a quote or a third dash; the key runs up to
    the next equal sign or the end. So [--=v] is the flag [=v], [--==v]
    gives the key [=] the value [v], and [---x] is the flag [-x]. *)
Theorem key_begins_behind_marker :
  (forall (single_value long : bool) (x : ascii) (k : list ascii)
          (o : options),
     key_head long x = true -> forallb key_char k = true ->
     length (dashes long ++ x :: k) < max_length ->
     parse (dashes long ++ x :: k) single_value o
     = {| a := a o; opts := subscript (opts o) (x :: k) |}) /\
  (forall (single_value long : bool) (x : ascii) (k v : list ascii)
          (o : options),
     key_head long x = true -> forallb key_char k = true ->
     valid_value v = true ->
     length (dashes long ++ x :: k ++ EQUAL :: v) < max_length ->
     parse (dashes long ++ x :: k ++ EQUAL :: v) single_value o
     = {| a := a o; opts := <[x :: k := v]> (opts o) |}).
Proof.
  split.
  - intros single_value long x k o Hx Hk Hb. unfold parse.
    remember (dashes long ++ x :: k) as s eqn:Es.
    assert (Hs : drop 0 s = dashes long ++ (x :: k) ++ [])
      by (rewrite Es, app_nil_r; apply drop_0).
    rewrite parse_upto_terminated; [| |assumption].
    2:{ rewrite <- (drop_0 s), Hs. apply key_any_not_eol; auto. }
    destruct (scan_key_any s single_value 0 0 o long x k [] Hs Hx Hk)
      as (Hlt & Hend & Hview & Hscan).
    cbn [Nat.add] in Hlt, Hend, Hview, Hscan.
    assert (Hlen : length s = length (dashes long) + S (length k))
      by (rewrite Es, length_app; reflexivity).
    unfold entry. rewrite Hlen, Hscan.
    assert (Hc : deref s (length (dashes long) + S (length k)) = NUL).
    { rewrite <- (Nat.add_0_r (_ + _)).
      now rewrite (deref_from s _ _ 0 Hend). }
    unfold step. rewrite Hc. unfold flush.
    cbn [ps token_start key self is_whitespace is_equal_sign].
    simpl. apply Nat.ltb_lt in Hlt. now rewrite Hlt, Hview.
  - intros single_value long x k v o Hx Hk Hv Hb. unfold parse.
    apply andb_true_iff in Hv. destruct Hv as [Hq Hv].
    apply negb_true_iff in Hq.
    remember (dashes long ++ x :: k ++ EQUAL :: v) as s eqn:Es.
    assert (Hs : drop 0 s = dashes long ++ (x :: k) ++ EQUAL :: v ++ [])
      by (rewrite Es, app_nil_r, drop_0; reflexivity).
    rewrite parse_upto_terminated; [| |assumption].
    2:{ rewrite <- (drop_0 s), Hs. apply key_any_not_eol; auto.
        constructor; [reflexivity|]. rewrite app_nil_r.
        apply (forallb_not_eol value_char); [|assumption].
        intros ch Hch. now apply value_char_true in Hch. }
    destruct (scan_key_any s single_value 0 0 o long x k _ Hs Hx Hk)
      as (Hlt & Hrest & Hview & Hscan).
    cbn [Nat.add] in Hlt, Hrest, Hview, Hscan.
    assert (Hlen : length s
                   = (length (dashes long) + S (length k)) + S (length v)).
    { rewrite Es, length_app. simpl. rewrite length_app. simpl. lia. }
    unfold entry. rewrite Hlen, scan_add, Nat.add_0_l, Hscan.
    rewrite scan_S, step_key_equal by now apply (deref_head s _ _ _ Hrest).
    rewrite Hview. apply drop_next in Hrest.
    rewrite (scan_value_body s single_value _ _ (x :: k) o v [])
      by (try assumption; try lia; now right).
    pose proof (view_head s _ _ _ Hrest) as Hval.
    apply drop_behind in Hrest.
    assert (Hc : deref s (length (dashes long) + S (length k) + 1
                          + length v) = NUL).
    { rewrite <- (Nat.add_0_r (_ + length v)).
      now rewrite (deref_from s _ _ 0 Hrest). }
    replace (length (dashes long) + S (length k) + S (length v))
      with (length (dashes long) + S (length k) + 1 + length v) by lia.
    unfold step. rewrite Hc. unfold flush.
    cbn [ps token_start key self]. simpl. now rewrite Hval.
Qed.

Lemma key_begins_behind_marker_witness :
  parse (dashes true ++ EQUAL :: cstr "v") false empty_options
  = {| a := []; opts := <[cstr "=v" := []]> ∅ |} /\
  parse (dashes true ++ EQUAL :: [] ++ EQUAL :: cstr "v") false
    empty_options
  = {| a := []; opts := <[cstr "=" := cstr "v"]> ∅ |} /\
  parse (dashes true ++ DASH :: cstr "x") true empty_options
  = {| a := []; opts := <[cstr "-x" := []]> ∅ |}.
Proof.
  destruct key_begins_behind_marker as [Hflag Hkeyed].
  split; [|split].
  - rewrite (Hflag false true EQUAL (cstr "v") empty_options);
      [reflexivity | reflexivity | reflexivity|].
    apply Nat.ltb_lt. vm_compute. reflexivity.
  - rewrite (Hkeyed false true EQUAL [] (cstr "v") empty_options);
      [reflexivity | reflexivity | reflexivity | reflexivity|].
    apply Nat.ltb_lt. vm_compute. reflexivity.
  - rewrite (Hflag true true DASH (cstr "x") empty_options);
      [reflexivity | reflexivity | reflexivity|].
    apply Nat.ltb_lt. vm_compute. reflexivity.
Defined.

(** ** Key markers without a key *)

Lemma parse_loop_markers (s : list ascii) (single_value : bool)
    (o : options) :
  forall (fuel c n ts : nat),
    marker_runs n (drop c s) = true ->
    self (parse_loop fuel s single_value c
            (mk_frame (marker_state n) ts [] o)) = o.
Proof.
  induction fuel as [|fuel IH]; intros c n ts Hm; [reflexivity|].
  cbn [parse_loop]. cbv zeta.
  destruct (drop c s) as [|x r] eqn:Hd.
  - assert (Hc : deref s c = NUL).
    { rewrite <- (Nat.add_0_r c). now rewrite (deref_from s _ c 0 Hd). }
    rewrite Hc. unfold step. rewrite Hc.
    destruct n as [|[|n]]; simpl; unfold flush; simpl;
      now rewrite Nat.ltb_irrefl.
  - pose proof (deref_head s _ _ _ Hd) as Hc.
    apply drop_next in Hd. rewrite Nat.add_1_r in Hd.
    simpl in Hm. destruct (is_dash x) eqn:Hx.
    + apply andb_true_iff in Hm. destruct Hm as [Hn Hm].
      apply Nat.ltb_lt in Hn. apply Ascii.eqb_eq in Hx.
      rewrite Hc. subst x. cbn [is_eol]. simpl Ascii.eqb. cbv iota.
      rewrite <- Hd in Hm. unfold step. rewrite Hc.
      destruct n as [|[|n]]; [| |lia].
      * exact (IH (S c) 1 ts Hm).
      * exact (IH (S c) 2 ts Hm).
    + apply andb_true_iff in Hm. destruct Hm as [Hw Hm].
      destruct (whitespace_not_special x Hw) as (He & _ & _).
      rewrite Hc, He. rewrite <- Hd in Hm. unfold step. rewrite Hc.
      destruct n as [|[|n]]; cbn [marker_state ps]; rewrite ?Hx, Hw;
        exact (IH (S c) 0 ts Hm).
Qed.

(** X18: key markers that no key follows record nothing. An input made of
    whitespace and of runs of one or two dashes only, each run followed by
    whitespace or by the end of the input, leaves the object as it was, in
    both modes and whatever its length. *)
Theorem key_markers_alone (s : list ascii) (single_value : bool)
    (o : options) :
  marker_runs 0 s = true -> parse s single_value o = o.
Proof.
  intros Hm. unfold parse, parse_upto, entry.
  apply (parse_loop_markers s single_value o max_length 0 0 0).
  now rewrite drop_0.
Qed.

Lemma key_markers_alone_witness :
  parse (cstr " - --  -") false (options_cmd_line (cstr "--k=v x"))
  = options_cmd_line (cstr "--k=v x") /\
  parse (cstr "--") true empty_options = empty_options.
Proof.
  split.
  - apply (key_markers_alone (cstr " - --  -")). reflexivity.
  - apply (key_markers_alone (cstr "--")). reflexivity.
Defined.

(** * Keys given more than once, and bare flags *)

Lemma get_string_spaced (lead : list ascii) (l : list (token * list ascii))
    (k : list ascii) :
  whitespace lead = true -> valid_spaced l = true ->
  length (lead ++ spaced l) < max_length ->
  get_string (options_cmd_line (lead ++ spaced l)) k
  = stored_value k (tokens l).
Proof.
  intros Hlead Hl Hb. unfold options_cmd_line, parse.
  rewrite parse_upto_spaced by assumption. apply get_string_effects.
Qed.

Lemma get_string_argv_tokens (prog : list ascii) (ts : list token)
    (k : list ascii) :
  forallb valid_token ts = true -> fits ts = true ->
  get_string (options_argv (S (length ts)) (prog :: map spell ts)) k
  = stored_value k ts.
Proof.
  intros Hv Hf. rewrite options_argv_tokens by assumption.
  apply get_string_effects.
Qed.



Lemma stored_value_flag (k : list ascii) (long : bool) (ts : list token) :
  In (flag long k) ts ->
  stored_value k ts = Some (default [] (last_value k ts)).
Proof.
  intros Hin. unfold stored_value. rewrite (existsb_names k long ts Hin).
  now destruct (last_value k ts).
Qed.

Lemma flag_among (o : options) (k : list ascii) (ts : list token)
    (long : bool) :
  get_string o k = stored_value k ts -> In (flag long k) ts ->
  has_opt o k = true /\
  get_string o k = Some (default [] (last_value k ts)) /\
  (last_value k ts = None -> forall d : bool, get_bool o k d = returns true).
Proof.
  intros Hs Hin. rewrite (stored_value_flag k long ts Hin) in Hs.
  split; [now apply has_opt_get_string in Hs|].
  split; [exact Hs|].
  intros Hnone d. rewrite Hnone in Hs. now apply get_bool_empty.
Qed.

(** C8 (amended): a bare flag [-key] or [--key], with a well-formed key and
    shorter than [max_length] = 4096 characters, makes the key present and
    leaves a value that the key holds as it is. Parsed into any object, in
    either mode: [has_opt] is true; [get_string] returns the value held
    before, and the empty string if the key was absent; [get_bool] returns
    true if the key was absent, and what it returned before if the key was
    present. So for the flag alone, as a command line or as the only argv
    element: the key is present, the value is empty and [get_bool] is true.
    For a flag among the well-formed tokens of a command line shorter than
    [max_length] characters, or of an argument vector of one token per
    element, each shorter than [max_length]: the key is present and
    [get_string] returns the last value that a token gives to the key,
    wherever it stands, and the empty string if no token gives one, in
    which case [get_bool] is true. *)
Theorem bare_flag_amended :
  (forall (single_value long : bool) (k : list ascii) (o : options),
     valid_key k = true -> length (dashes long ++ k) < max_length ->
     let o' := parse (dashes long ++ k) single_value o in
     has_opt o' k = true /\
     get_string o' k = Some (default [] (get_string o k)) /\
     (has_opt o k = false ->
      forall d : bool, get_bool o' k d = returns true) /\
     (has_opt o k = true ->
      forall d : bool, get_bool o' k d = get_bool o k d)) /\
  (forall (long : bool) (k : list ascii),
     valid_key k = true -> length (dashes long ++ k) < max_length ->
     let o := options_cmd_line (dashes long ++ k) in
     has_opt o k = true /\ get_string o k = Some [] /\
     forall d : bool, get_bool o k d = returns true) /\
  (forall (long : bool) (prog k : list ascii),
     valid_key k = true -> length (dashes long ++ k) < max_length ->
     let o := options_argv 2 [prog; dashes long ++ k] in
     has_opt o k = true /\ get_string o k = Some [] /\
     forall d : bool, get_bool o k d = returns true) /\
  (forall (lead : list ascii) (l : list (token * list ascii)) (long : bool)
          (k : list ascii),
     whitespace lead = true -> valid_spaced l = true ->
     length (lead ++ spaced l) < max_length ->
     In (flag long k) (tokens l) ->
     let o := options_cmd_line (lead ++ spaced l) in
     has_opt o k = true /\
     get_string o k = Some (default [] (last_value k (tokens l))) /\
     (last_value k (tokens l) = None ->
      forall d : bool, get_bool o k d = returns true)) /\
  (forall (prog : list ascii) (ts : list token) (long : bool)
          (k : list ascii),
     forallb valid_token ts = true -> fits ts = true ->
     In (flag long k) ts ->
     let o := options_argv (S (length ts)) (prog :: map spell ts) in
     has_opt o k = true /\
     get_string o k = Some (default [] (last_value k ts)) /\
     (last_value k ts = None ->
      forall d : bool, get_bool o k d = returns true)).
Proof.
  split; [|split; [|split; [|split]]].
  - intros single_value long k o Hk Hb. cbv zeta.
    change (dashes long ++ k) with (spell (flag long k)).
    rewrite (parse_token single_value (flag long k) o Hk Hb).
    assert (Hs : get_string (effect o (flag long k)) k
                 = Some (default [] (get_string o k))).
    { unfold get_string, find_opt. simpl.
      rewrite lookup_subscript, bool_decide_eq_true_2 by reflexivity.
      now destruct (opts o !! k). }
    split; [now apply has_opt_get_string in Hs|].
    split; [exact Hs|]. split.
    + intros Habs d. apply get_bool_empty. rewrite Hs.
      unfold has_opt in Habs. unfold get_string.
      now destruct (find_opt o k).
    + intros Hpre d. unfold get_bool. rewrite Hs.
      unfold has_opt in Hpre. unfold get_string.
      now destruct (find_opt o k).
  - intros long k Hk Hb. cbv zeta. apply flag_alone.
    unfold options_cmd_line.
    exact (parse_token false (flag long k) empty_options Hk Hb).
  - intros long prog k Hk Hb. cbv zeta. apply flag_alone.
    change 2 with (S (length [dashes long ++ k])).
    rewrite (options_argv_fold prog [dashes long ++ k]).
    cbn [fold_left].
    exact (parse_token true (flag long k) empty_options Hk Hb).
  - intros lead l long k Hlead Hl Hb Hin. cbv zeta.
    apply (flag_among _ k (tokens l) long); [|assumption].
    now apply get_string_spaced.
  - intros prog ts long k Hv Hf Hin. cbv zeta.
    apply (flag_among _ k ts long); [|assumption].
    now apply get_string_argv_tokens.
Qed.

Lemma bare_flag_amended_witness :
  get_bool (options_cmd_line (cstr "-verbose")) (cstr "verbose") false
  = returns true /\
  get_string (options_argv 2 [cstr "prog"; cstr "--verbose"]) (cstr "verbose")
  = Some [] /\
  get_string
    (parse (dashes true ++ cstr "k") false
       (options_cmd_line (cstr "--k=0")))
    (cstr "k")
  = Some (cstr "0") /\
  get_string
    (options_cmd_line
       (spaced [(flag true (cstr "k"), [SP; TAB]);
                (keyed false (cstr "k") (cstr "no"), [])]))
    (cstr "k")
  = Some (cstr "no") /\
  has_opt
    (options_argv 3
       (cstr "prog" :: map spell [word (cstr "x"); flag true (cstr "v")]))
    (cstr "v")
  = true.
Proof.
  destruct bare_flag_amended as (Hany & Hcl & Hargv & Hts & Hvec).
  split; [|split; [|split; [|split]]].
  - apply (Hcl false (cstr "verbose")); [reflexivity|].
    apply Nat.ltb_lt. vm_compute. reflexivity.
  - apply (Hargv true (cstr "prog") (cstr "verbose")); [reflexivity|].
    apply Nat.ltb_lt. vm_compute. reflexivity.
  - destruct (Hany false true (cstr "k") (options_cmd_line (cstr "--k=0")))
      as (_ & Hs & _); [reflexivity | |].
    + apply Nat.ltb_lt. vm_compute. reflexivity.
    + rewrite Hs. vm_compute. reflexivity.
  - destruct (Hts [] [(flag true (cstr "k"), [SP; TAB]);
                      (keyed false (cstr "k") (cstr "no"), [])]
                  true (cstr "k")) as (_ & Hs & _);
      [reflexivity | reflexivity | | simpl; tauto | exact Hs].
    apply Nat.ltb_lt. vm_compute. reflexivity.
  - apply (Hvec (cstr "prog") [word (cstr "x"); flag true (cstr "v")]
             true (cstr "v")); [reflexivity | reflexivity | simpl; tauto].
Defined.

(** C8, as stated, at --k=0 --k and at the argument vector prog, --k=no,
    --k: the bare flag comes last, yet the value of k is not the empty
    string and [get_bool] is false. *)
Lemma bare_flag_after_value :
  has_opt (options_cmd_line (cstr "--k=0 --k")) (cstr "k") = true /\
  get_string (options_cmd_line (cstr "--k=0 --k")) (cstr "k")
  = Some (cstr "0") /\
  get_string (options_cmd_line (cstr "--k=0 --k")) (cstr "k") <> Some [] /\
  get_bool (options_cmd_line (cstr "--k=0 --k")) (cstr "k") false
  = returns false /\
  get_bool (options_cmd_line (cstr "--k=0 --k")) (cstr "k") true
  = returns false /\
  get_string (options_argv 3 [cstr "prog"; cstr "--k=no"; cstr "--k"])
    (cstr "k")
  = Some (cstr "no") /\
  get_bool (options_argv 3 [cstr "prog"; cstr "--k=no"; cstr "--k"])
    (cstr "k") true
  = returns false.
Proof.
  vm_compute. repeat split; try reflexivity. discriminate.
Qed.
